(** * Nonnegative least squares solvers of [tensorly/tenalg/proximal.py]

    A shallow embedding of [hals_nnls], [active_set_nnls] and [fista_nnls].

    - Scalars are kept abstract behind the [Scalar] interface, the way the
      source keeps them behind the [tl] backend.  Two instances are given:
      IEEE binary64 (what the NumPy backend computes with) and exact
      rationals (the idealised arithmetic of the derivations).
    - Python exceptions are values of [exn]; a computation that may raise
      returns a [result].
    - A local variable that is only assigned inside a loop is an [option]
      until the loop has run; a global name is looked up in the namespace of
      the module.
    - The linear-algebra kernels the module calls but does not define
      ([tl.solve], [tl.dot] on a number, [multi_mode_dot], [np.sqrt],
      [kronecker]) are parameters. *)

From Stdlib Require Import ZArith QArith Qabs Bool String List Lia Lqa.
From Stdlib Require Import Permutation.
From Stdlib Require Import Floats.PrimFloat.
From Stdlib Require DecimalString.
Import ListNotations.

Set Implicit Arguments.
Local Open Scope Z_scope.

(** ** Exceptions and results *)

Inductive exn : Type :=
| NameError (name : string)
| UnboundLocalError (name : string)
| ValueError (msg : string)
| TypeError (msg : string)
| IndexError (msg : string)
| AttributeError (msg : string)
| ZeroDivisionError
| LinAlgError (msg : string).

Inductive result (A : Type) : Type :=
| Ok (a : A)
| Raise (e : exn).

Arguments Ok {A} a.
Arguments Raise {A} e.

Definition bind {A B : Type} (m : result A) (k : A -> result B) : result B :=
  match m with
  | Ok a => k a
  | Raise e => Raise e
  end.

Notation "x <- m ;; k" := (bind m (fun x => k))
  (at level 61, m at next level, right associativity).
Notation "' p <- m ;; k" := (bind m (fun p => k))
  (at level 61, p pattern, m at next level, right associativity).

(** ** Loops with [break] *)

Inductive flow (S : Type) : Type :=
| Continue (s : S)
| Break (s : S).

Arguments Continue {S} s.
Arguments Break {S} s.

(** [for i in items: body], the state threaded through; [Break] leaves the
    loop with the state reached. *)
Fixpoint for_each {I S : Type} (body : I -> S -> result (flow S))
    (items : list I) (s : S) : result S :=
  match items with
  | [] => Ok s
  | i :: rest =>
      r <- body i s ;;
      match r with
      | Break s' => Ok s'
      | Continue s' => for_each body rest s'
      end
  end.

(** The state an iteration ends in, however it ends. *)
Definition flow_state {S : Type} (r : flow S) : S :=
  match r with
  | Continue s => s
  | Break s => s
  end.

(** [range(n)]: empty for [n <= 0]. *)
Definition range (n : Z) : list Z :=
  map Z.of_nat (seq 0 (Z.to_nat n)).

(** [str(k)] of a nonnegative index. *)
Definition str (k : Z) : string :=
  DecimalString.NilZero.string_of_uint (N.to_uint (Z.to_N k)).

(** ** Scalars: the backend's number type *)

Class Scalar (F : Type) : Type := {
  zero : F;
  one : F;
  add : F -> F -> F;
  sub : F -> F -> F;
  mul : F -> F -> F;
  div : F -> F -> F;
  opp : F -> F;
  ltb : F -> F -> bool;
  eqb : F -> F -> bool;
  of_Z : Z -> F;
  sqrt : F -> F;
  eps : F
}.

(** A decimal literal of the source, as the quotient of two integers. *)
Definition lit {F : Type} `{Scalar F} (q : Q) : F :=
  div (of_Z (Qnum q)) (of_Z (Zpos (Qden q))).

(** Truth value of a number in an [if]: anything but zero. *)
Definition truthy {F : Type} `{Scalar F} (x : F) : bool := negb (eqb x zero).

Definition isnan {F : Type} `{Scalar F} (x : F) : bool := negb (eqb x x).

(** *** binary64 *)

Fixpoint float_of_pos (p : positive) : float :=
  match p with
  | xH => 1%float
  | xO p' => PrimFloat.mul 2%float (float_of_pos p')
  | xI p' => PrimFloat.add (PrimFloat.mul 2%float (float_of_pos p')) 1%float
  end.

Definition float_of_Z (z : Z) : float :=
  match z with
  | Z0 => 0%float
  | Zpos p => float_of_pos p
  | Zneg p => PrimFloat.opp (float_of_pos p)
  end.

#[export] Instance float_scalar : Scalar float := {|
  zero := 0%float;
  one := 1%float;
  add := PrimFloat.add;
  sub := PrimFloat.sub;
  mul := PrimFloat.mul;
  div := PrimFloat.div;
  opp := PrimFloat.opp;
  ltb := PrimFloat.ltb;
  eqb := PrimFloat.eqb;
  of_Z := float_of_Z;
  sqrt := PrimFloat.sqrt;
  eps := 0x1p-52%float
|}.

(** *** exact rationals, over a given square root

    Every result is kept in lowest terms, so that equal numbers are equal
    terms. *)

Definition Qltb (a b : Q) : bool := negb (Qle_bool b a).
Definition Qadd_red (a b : Q) : Q := Qred (a + b).
Definition Qsub_red (a b : Q) : Q := Qred (a - b).
Definition Qmul_red (a b : Q) : Q := Qred (a * b).
Definition Qdiv_red (a b : Q) : Q := Qred (a / b).
Definition Qopp_red (a : Q) : Q := Qred (- a).

Definition Q_scalar (sqrtQ : Q -> Q) (epsQ : Q) : Scalar Q := {|
  zero := 0%Q;
  one := 1%Q;
  add := Qadd_red;
  sub := Qsub_red;
  mul := Qmul_red;
  div := Qdiv_red;
  opp := Qopp_red;
  ltb := Qltb;
  eqb := Qeq_bool;
  of_Z := inject_Z;
  sqrt := sqrtQ;
  eps := epsQ
|}.

(** Entrywise nonnegativity, in exact arithmetic. *)
Definition nonneg_vec (a : list Q) : Prop := Forall (fun x => (0 <= x)%Q) a.
Definition nonneg_matrix (V : list (list Q)) : Prop := Forall nonneg_vec V.

(** ** Vectors and matrices (row-major, as the backend's arrays)

    Index and shape errors of the backend are not modelled: the operands are
    taken to have conforming shapes, as every call of the source supplies
    them.  Sums accumulate from left to right. *)

Definition vec (F : Type) : Type := list F.
Definition matrix (F : Type) : Type := list (list F).

Section LinearAlgebra.
Context {F : Type} `{Scalar F}.

Definition map2 {A B C : Type} (f : A -> B -> C) (a : list A) (b : list B)
  : list C :=
  map (fun p => f (fst p) (snd p)) (combine a b).

Definition vadd (a b : vec F) : vec F := map2 add a b.
Definition vsub (a b : vec F) : vec F := map2 sub a b.
Definition vopp (a : vec F) : vec F := map opp a.
Definition vscale (c : F) (a : vec F) : vec F := map (mul c) a.
Definition vsubs (a : vec F) (c : F) : vec F := map (fun x => sub x c) a.
Definition vdivs (a : vec F) (c : F) : vec F := map (fun x => div x c) a.

(** [tl.sum] of a flat array. *)
Definition vsum (a : vec F) : F := fold_left add a zero.

(** [tl.dot] of two 1-D arrays. *)
Definition vdot (a b : vec F) : F := vsum (map2 mul a b).

(** [tl.where(cond, a, b)], elementwise. *)
Definition where_ (c : list bool) (a b : vec F) : vec F :=
  map2 (fun (t : bool) (p : F * F) => if t then fst p else snd p)
       c (combine a b).

(** [tl.norm]: the 2-norm. *)
Definition norm (a : vec F) : F := sqrt (vsum (map (fun x => mul x x) a)).

Definition row (M : matrix F) (k : nat) : vec F := nth k M [].
Definition entry (M : matrix F) (i j : nat) : F := nth j (row M i) zero.

(** [M[k, :] = r] *)
Fixpoint set_row (M : matrix F) (k : nat) (r : vec F) : matrix F :=
  match M, k with
  | [], _ => []
  | _ :: M', O => r :: M'
  | r0 :: M', S k' => r0 :: set_row M' k' r
  end.

(** [tl.shape(M)] of a 2-D array; a matrix without rows keeps no column
    count, which no result below depends on. *)
Definition nrows (M : matrix F) : nat := length M.
Definition ncols (M : matrix F) : nat := length (hd [] M).

(** [tl.dot(u, M)] for a 1-D [u]: the combination of the rows of [M]. *)
Definition dot_vm (u : vec F) (M : matrix F) : vec F :=
  fold_left (fun acc p => vadd acc (vscale (fst p) (snd p)))
            (combine u M) (repeat zero (ncols M)).

(** [tl.dot(M, u)] for a 1-D [u]. *)
Definition dot_mv (M : matrix F) (u : vec F) : vec F :=
  map (fun r => vdot r u) M.

(** [tl.dot(A, tl.transpose(B))] *)
Definition dot_mt (A B : matrix F) : matrix F :=
  map (fun a => map (fun b => vdot a b) B) A.

(** [A * B], elementwise *)
Definition hadamard (A B : matrix F) : matrix F := map2 (map2 mul) A B.

(** [tl.sum] of a 2-D array *)
Definition msum (M : matrix F) : F := vsum (concat M).

(** [tl.dot(c, M)] for a scalar [c] *)
Definition mscale (c : F) (M : matrix F) : matrix F := map (vscale c) M.

(** [tl.clip(M, a_min=0, a_max=None)] *)
Definition clip0 (M : matrix F) : matrix F :=
  map (map (fun x => if ltb x zero then zero else x)) M.

(** [tl.all(a == 0)] *)
Definition all_zero (a : vec F) : bool := forallb (fun x => eqb x zero) a.

(** [tl.max] and [tl.min] of an array: a NaN wins, and an empty array has
    no extremum. *)
Definition max2 (a b : F) : F :=
  if isnan a then a else if isnan b then b else if ltb a b then b else a.
Definition min2 (a b : F) : F :=
  if isnan a then a else if isnan b then b else if ltb b a then b else a.

Definition tl_max (a : vec F) : result F :=
  match a with
  | [] => Raise (ValueError "zero-size array to reduction operation maximum which has no identity")
  | x :: a' => Ok (fold_left max2 a' x)
  end.

Definition tl_min (a : vec F) : result F :=
  match a with
  | [] => Raise (ValueError "zero-size array to reduction operation minimum which has no identity")
  | x :: a' => Ok (fold_left min2 a' x)
  end.
End LinearAlgebra.

(** ** [hals_nnls] (lines 98-250) *)

(** The names assigned only inside the outer loop. *)
Record hals_locals (F : Type) : Type := {
  rec_error : F;
  rec_error0 : F;
  iteration : Z;
  complexity_ratio : F
}.

Section Hals.
Context {F : Type} `{Scalar F}.

(** [tl.solve], the backend's linear solve. *)
Variable solve : matrix F -> matrix F -> result (matrix F).

(** [tl.dot(a, M)] for a number [a], as line 198 calls it: what the
    backend's [dot] does with a number in the place of an array. *)
Variable dot_sm : F -> matrix F -> result (matrix F).

Variables UtM UtU : matrix F.
Variable sparsity_coefficient : option F.
Variables normalize nonzero_rows exact : bool.

(** line 190 *)
Definition rank : nat := nrows UtM.
Definition n_col_M : nat := ncols UtM.

(** lines 192-198: the start when no [V] is given *)
Definition hals_init : result (matrix F) :=
  V <- solve UtU UtM ;;
  let V := clip0 V in
  let scale := div (msum (hadamard UtM V))
                   (msum (hadamard UtU (dot_mt V V))) in
  dot_sm scale V.

(** lines 199-201 *)
Definition effective_n_iter_max (n_iter_max : Z) : Z :=
  if exact then 5000 else n_iter_max.
Definition effective_tol (tol : F) : F :=
  if exact then lit (10 # 1000000000000) else tol.

(** lines 211-212 and 217-218: the clamped row step [deltaV] *)
Definition hals_gradient (V : matrix F) (k : nat) : vec F :=
  match sparsity_coefficient with
  | Some c =>
      vdivs (vsubs (vsub (row UtM k) (dot_vm (row UtU k) V)) c)
            (entry UtU k k)
  | None =>
      vdivs (vsub (row UtM k) (dot_vm (row UtU k) V)) (entry UtU k k)
  end.

Definition hals_deltaV (V : matrix F) (k : nat) : vec F :=
  let g := hals_gradient V k in
  where_ (map2 (fun d v => ltb (opp v) d) g (row V k)) g (vopp (row V k)).

(** lines 230-236 *)
Definition normalize_row (V : matrix F) (k : nat) : result (matrix F) :=
  let nrm := norm (row V k) in
  if negb (eqb nrm zero) then Ok (set_row V k (vdivs (row V k) nrm))
  else
    let r := sqrt (of_Z (Z.of_nat n_col_M)) in
    if eqb r zero then Raise ZeroDivisionError
    else Ok (set_row V k (repeat (div one r) n_col_M)).

(** lines 208-236: the body of [for k in range(rank)] *)
Definition hals_row (k : nat) (st : matrix F * F) : result (matrix F * F) :=
  let '(V, rec_error) := st in
  '(V, rec_error) <-
    (if truthy (entry UtU k k) then
       let deltaV := hals_deltaV V k in
       let V := set_row V k (vadd (row V k) deltaV) in
       let rec_error := add rec_error (vdot deltaV deltaV) in
       if nonzero_rows && all_zero (row V k) then
         m <- tl_max (concat V) ;;
         Ok (set_row V k (map (fun _ => mul eps m) (row V k)), rec_error)
       else Ok (V, rec_error)
     else if nonzero_rows then
       Raise (ValueError ("Column " ++ str (Z.of_nat k)
                          ++ " of U is zero with nonzero condition"))
     else Ok (V, rec_error)) ;;
  if normalize then
    V <- normalize_row V k ;; Ok (V, rec_error)
  else Ok (V, rec_error).

(** lines 204-236: one sweep over the rows, from [rec_error = 0] *)
Definition hals_sweep (V : matrix F) : result (matrix F * F) :=
  for_each (fun k st => st' <- hals_row k st ;; Ok (Continue st'))
           (seq 0 rank) (V, zero).

(** lines 240-242 *)
Definition hals_complexity_ratio (V : matrix F) : result F :=
  let numerator :=
    Z.of_nat (nrows V) * Z.of_nat (ncols V) + Z.of_nat (ncols V) * Z.of_nat rank in
  let denominator :=
    Z.of_nat (nrows V) * Z.of_nat rank + Z.of_nat (nrows V) in
  if denominator =? 0 then Raise ZeroDivisionError
  else Ok (add one (div (of_Z numerator) (of_Z denominator))).

(** line 244 and line 247: the two tests that leave the outer loop *)
Definition stop_exact (tol : F) (l : hals_locals F) : bool :=
  ltb (rec_error l) (mul tol (rec_error0 l)).

Definition stop_approx (tol : F) (l : hals_locals F) : bool :=
  ltb (rec_error l) (mul tol (rec_error0 l))
  || ltb (add one (mul (lit (5 # 10)) (complexity_ratio l)))
         (of_Z (iteration l)).

(** lines 243-248 *)
Definition hals_stop (tol : F) (l : hals_locals F) : bool :=
  if exact then stop_exact tol l else stop_approx tol l.

(** lines 204-242: what one outer iteration computes before the test *)
Definition hals_pass (iteration : Z) (V : matrix F)
  : result (matrix F * hals_locals F) :=
  '(V, rec_error) <- hals_sweep V ;;
  let rec_error0 := zero in
  let rec_error0 := if iteration =? 1 then rec_error else rec_error0 in
  complexity_ratio <- hals_complexity_ratio V ;;
  Ok (V, {| rec_error := rec_error; rec_error0 := rec_error0;
            iteration := iteration; complexity_ratio := complexity_ratio |}).

(** lines 204-248: the body of [for iteration in range(n_iter_max)] *)
Definition hals_iteration (tol : F) (iteration : Z)
    (st : matrix F * option (hals_locals F))
  : result (flow (matrix F * option (hals_locals F))) :=
  '(V, l) <- hals_pass iteration (fst st) ;;
  if hals_stop tol l then Ok (Break (V, Some l))
  else Ok (Continue (V, Some l)).

(** lines 191-198 *)
Definition hals_start (V : option (matrix F)) : result (matrix F) :=
  match V with
  | None => hals_init
  | Some V => Ok V
  end.

Definition hals_nnls (V : option (matrix F)) (n_iter_max : Z) (tol : F)
  : result (matrix F * F * Z * F) :=
  V <- hals_start V ;;
  let n_iter_max := effective_n_iter_max n_iter_max in
  let tol := effective_tol tol in
  '(V, l) <- for_each (hals_iteration tol) (range n_iter_max) (V, None) ;;
  match l with
  | None => Raise (UnboundLocalError "rec_error")
  | Some l => Ok (V, rec_error l, iteration l, complexity_ratio l)
  end.

(** The error of line 228. *)
Definition degenerate_column (k : nat) : exn :=
  ValueError ("Column " ++ str (Z.of_nat k)
              ++ " of U is zero with nonzero condition").

(** The iterations the outer loop runs from [V0]: [hals_run stop a V0 j V l]
    when iteration [j] has been reached, starting at index [a], none of the
    earlier ones having met [stop], and has computed [V] and [l]. *)
Inductive hals_run (stop : hals_locals F -> bool) (a : Z) (V0 : matrix F)
  : Z -> matrix F -> hals_locals F -> Prop :=
| run_first V l :
    hals_pass a V0 = Ok (V, l) -> hals_run stop a V0 a V l
| run_next j V l V' l' :
    hals_run stop a V0 j V l ->
    stop l = false ->
    hals_pass (j + 1) V = Ok (V', l') ->
    hals_run stop a V0 (j + 1) V' l'.
End Hals.

(** The defaults of the signature (line 98). *)
Definition default_n_iter_max : Z := 500.
Definition default_tol {F : Type} `{Scalar F} : F := lit (10 # 100000000).

(** ** A reference linear solve

    Gauss-Jordan elimination on the augmented rows, pivoting on the first row
    with a nonzero entry; a singular system raises as the backend's solve
    does.  It instantiates [tl.solve] in the closed examples. *)

Section GaussSolve.
Context {F : Type} `{Scalar F}.

Fixpoint find_pivot (c : nat) (rows : list (vec F))
  : option (vec F * list (vec F)) :=
  match rows with
  | [] => None
  | r :: rs =>
      if truthy (nth c r zero) then Some (r, rs)
      else match find_pivot c rs with
           | Some (p, rest) => Some (p, r :: rest)
           | None => None
           end
  end.

Fixpoint gauss_jordan (cols : list nat) (done todo : list (vec F))
  : result (list (vec F)) :=
  match cols with
  | [] => Ok done
  | c :: cs =>
      match find_pivot c todo with
      | None => Raise (LinAlgError "Singular matrix")
      | Some (p, rest) =>
          let p := vdivs p (nth c p zero) in
          let elim := fun r => vsub r (vscale (nth c r zero) p) in
          gauss_jordan cs (map elim done ++ [p]) (map elim rest)
      end
  end.

Definition gauss_solve (A B : matrix F) : result (matrix F) :=
  rows <- gauss_jordan (seq 0 (nrows A)) [] (map2 (@app F) A B) ;;
  Ok (map (skipn (nrows A)) rows).
End GaussSolve.

(** ** Two backends for [dot] on a number

    [dot(a, M)] as the method call [a.dot(M)], which a NumPy number does not
    have, and [dot] as [numpy.dot], the product by the number.  They
    instantiate [dot_sm] in the closed examples. *)

Definition dot_sm_method {F : Type} (a : F) (M : matrix F)
  : result (matrix F) :=
  Raise (AttributeError "'numpy.float64' object has no attribute 'dot'").

Definition dot_sm_numpy {F : Type} `{Scalar F} (a : F) (M : matrix F)
  : result (matrix F) :=
  Ok (mscale a M).

(** ** The namespace of the module

    Line 1 imports [tensorly] as [tl]; the six [def]s bind their own names.
    Nothing else is bound at module level, and a name that is neither local,
    global nor built in raises [NameError] when it is evaluated. *)

Definition namespace : Type := list string.

Definition proximal_globals : namespace :=
  ["tl"; "soft_thresholding"; "svd_thresholding"; "procrustes";
   "hals_nnls"; "active_set_nnls"; "fista_nnls"]%string.

(** The built-in names the module uses. *)
Definition builtins : namespace :=
  ["min"; "range"; "len"; "list"; "enumerate"; "str"; "ValueError"]%string.

Definition lookup (G : namespace) (name : string) : result unit :=
  if existsb (String.eqb name) (G ++ builtins) then Ok tt
  else Raise (NameError name).

(** ** Tensors: a shape and the entries in row-major order *)

Record tensor (F : Type) : Type := {
  shape : list nat;
  data : vec F
}.

Section Tensors.
Context {F : Type} `{Scalar F}.

Definition leb (a b : F) : bool := ltb a b || eqb a b.

Definition tmap (f : F -> F) (a : tensor F) : tensor F :=
  {| shape := shape a; data := map f (data a) |}.
Definition tmap2 (f : F -> F -> F) (a b : tensor F) : tensor F :=
  {| shape := shape a; data := map2 f (data a) (data b) |}.

Definition tadd : tensor F -> tensor F -> tensor F := tmap2 add.
Definition tsub : tensor F -> tensor F -> tensor F := tmap2 sub.
Definition topp : tensor F -> tensor F := tmap opp.
Definition tscale (c : F) : tensor F -> tensor F := tmap (mul c).

(** [tl.where(a < b, c, d)] on tensors *)
Definition twhere_lt (a b c d : tensor F) : tensor F :=
  {| shape := shape a;
     data := where_ (map2 ltb (data a) (data b)) (data c) (data d) |}.

(** [tl.base.tensor_to_vec] and [tl.reshape] *)
Definition tensor_to_vec (a : tensor F) : vec F := data a.
Definition reshape (v : vec F) (sh : list nat) : tensor F :=
  {| shape := sh; data := v |}.

Definition transpose (M : matrix F) : matrix F :=
  map (fun j => map (fun r => nth j r zero) M) (seq 0 (ncols M)).

(** [tl.dot] of two matrices *)
Definition matmul (A B : matrix F) : matrix F :=
  map (fun a => dot_vm a B) A.

(** lines 269-271 and 359-361: [tl.dot(tl.conj(tl.transpose(b)), b)] for
    each [b]; the conjugate of a real array is the array. *)
Definition gram (b : matrix F) : matrix F := matmul (transpose b) b.

(** [a[P]]: the entries of [a] at the indices [P] *)
Definition gather (a : vec F) (P : list nat) : vec F :=
  map (fun p => nth p a zero) P.

Fixpoint set_nth (a : vec F) (p : nat) (v : F) : vec F :=
  match a, p with
  | [], _ => []
  | _ :: a', O => v :: a'
  | x :: a', S p' => x :: set_nth a' p' v
  end.

(** [a[P] = vs] *)
Definition scatter (a : vec F) (P : list nat) (vs : vec F) : vec F :=
  fold_left (fun acc pv => set_nth acc (fst pv) (snd pv)) (combine P vs) a.

(** [M[P][:, P]] *)
Definition submatrix (M : matrix F) (P : list nat) : matrix F :=
  map (fun p => gather (row M p) P) P.

(** [w.argmax()]: the first index of the maximum, a NaN counting as one *)
Fixpoint argmax_from (best : F) (ibest i : nat) (w : vec F) : nat :=
  match w with
  | [] => ibest
  | x :: w' =>
      if isnan best then ibest
      else if isnan x || ltb best x then argmax_from x i (Datatypes.S i) w'
      else argmax_from best ibest (Datatypes.S i) w'
  end.

Definition argmax (w : vec F) : result nat :=
  match w with
  | [] => Raise (ValueError "attempt to get argmax of an empty sequence")
  | x :: w' => Ok (argmax_from x O 1%nat w')
  end.
End Tensors.

(** ** [fista_nnls] (lines 333-384) *)

Module Fista.

(** The loop-carried variables. *)
Record state (F : Type) : Type := {
  x : tensor F;
  x_upd : tensor F;
  momentum_0 : F;
  norm_0 : F
}.

Section Fista.
Context {F : Type} `{Scalar F}.

(** [multi_mode_dot(tensor, matrices, transpose)], what the name denotes
    in [tl.tenalg]. *)
Variable multi_mode_dot : tensor F -> list (matrix F) -> bool -> tensor F.

(** [tl.zeros()] with no shape, as line 356 calls it. *)
Variable zeros_noshape : result (tensor F).

(** The global names bound when the function runs. *)
Variable G : namespace.

(** line 373 *)
Definition delta_x (gradient_step : F) (gradient : tensor F)
    (st : state F) : tensor F :=
  twhere_lt (tscale gradient_step gradient) (x st)
            (tscale gradient_step gradient) (x_upd st).

(** line 375, right of [np.sqrt] being found *)
Definition next_momentum (m0 : F) : F :=
  div (add one (sqrt (add one (mul (of_Z 4) (mul m0 m0))))) (of_Z 2).

(** lines 372-383: the body of [for iteration in range(n_iter_max)] *)
Definition fista_iteration (BtA : tensor F)
    (pseudo_inverse : list (matrix F)) (gradient_step : F)
    (iteration : Z) (st : state F) : result (flow (state F)) :=
  let gradient :=
    tadd (topp BtA) (multi_mode_dot (x_upd st) pseudo_inverse false) in
  let delta_x := delta_x gradient_step gradient st in
  let xnew := tsub (x_upd st) delta_x in
  _ <- lookup G "np" ;;
  let momentum := next_momentum (momentum_0 st) in
  let x_upd :=
    tadd xnew (tscale (div (sub (momentum_0 st) one) momentum)
                      (tsub xnew (x st))) in
  let momentum_0 := momentum in
  let x := xnew in
  let nrm := norm (data delta_x) in
  let norm_0 := if iteration =? 1 then nrm else norm_0 st in
  let st' := {| x := x; x_upd := x_upd; momentum_0 := momentum_0;
                norm_0 := norm_0 |} in
  if ltb nrm (mul (lit (1 # 100)) norm_0) then Ok (Break st')
  else Ok (Continue st').

(** lines 366-368 *)
Definition initial (x0 : tensor F) : state F :=
  {| x := x0; x_upd := x0; momentum_0 := one; norm_0 := zero |}.

Definition fista_nnls (A : tensor F) (B : list (matrix F))
    (x0 : option (tensor F)) (n_iter_max : Z) (gradient_step : option F)
    (sparsity_coefficient : option F) : result (tensor F) :=
  let sparsity_coefficient :=
    match sparsity_coefficient with None => zero | Some c => c end in
  let gradient_step :=
    match gradient_step with None => lit (1 # 1000) | Some g => g end in
  x0 <- match x0 with
        | None => zeros_noshape
        | Some x0 => Ok x0
        end ;;
  let pseudo_inverse := map gram B in
  _ <- lookup G "multi_mode_dot" ;;
  let BtA := multi_mode_dot A B true in
  st <- for_each (fista_iteration BtA pseudo_inverse gradient_step)
                 (range n_iter_max) (initial x0) ;;
  Ok (x st).
End Fista.

Definition default_n_iter_max : Z := 100.

End Fista.

(** ** [active_set_nnls] (lines 252-331)

    [x_vec] is a view of [x] (a reshape of a contiguous array) and line 316
    rebinds [x] to a view of [x_vec]: the two names share their entries, kept
    here as the one buffer [x_vec]; the shape of [x] does not change. *)

Module ActiveSet.

(** The loop-carried variables. *)
Record state (F : Type) : Type := {
  x_vec : vec F;
  w : vec F;
  P : list nat;
  R : list nat;
  s : vec F;
  update : option (vec F);
  rec_erroras : list F
}.

(** What lines 284-292 decide. *)
Inductive head : Type :=
| Stop
| Pivot (P R : list nat).

(** [l.remove(v)] *)
Fixpoint list_remove (v : nat) (l : list nat) : result (list nat) :=
  match l with
  | [] => Raise (ValueError "list.remove(x): x not in list")
  | a :: l' =>
      if (a =? v)%nat then Ok l'
      else l'' <- list_remove v l' ;; Ok (a :: l'')
  end.

(** [l[i]] *)
Definition item {A : Type} (l : list A) (i : nat) : result A :=
  match nth_error l i with
  | Some a => Ok a
  | None => Raise (IndexError "list index out of range")
  end.

Section ActiveSet.
Context {F : Type} `{Scalar F}.

Variable multi_mode_dot : tensor F -> list (matrix F) -> bool -> tensor F.
(** [tl.tenalg.kronecker] *)
Variable kronecker : list (matrix F) -> matrix F.
Variable solve : matrix F -> matrix F -> result (matrix F).
Variable G : namespace.

(** lines 284-292 *)
Definition iteration_head (w : vec F) (P R : list nat) : result head :=
  m <- tl_min w ;;
  if ltb m zero then Ok Stop
  else
    indice <- argmax w ;;
    if (length P =? 0)%nat then
      R' <- list_remove indice R ;; Ok (Pivot (P ++ [indice]) R')
    else if negb (last P O =? indice)%nat then
      R' <- list_remove indice R ;; Ok (Pivot (P ++ [indice]) R')
    else Ok (Pivot P R).

(** [tl.solve(AtA[P][:, P], AtB[P])], the right-hand side a 1-D array *)
Definition solve_restricted (AtA : matrix F) (AtB : vec F) (P : list nat)
  : result (vec F) :=
  sol <- solve (submatrix AtA P) (map (fun b => [b]) (gather AtB P)) ;;
  Ok (concat sol).

(** [x[j] < 0] as a condition: [x[j]] is an entry when [x] is 1-D and a
    sub-array otherwise, whose truth value is defined for one entry. *)
Definition item_negative (sh : list nat) (x_vec : vec F) (j : nat)
  : result bool :=
  match sh with
  | [] => Raise (IndexError "too many indices for array")
  | d0 :: rest =>
      if (j <? d0)%nat then
        let sz := fold_left Nat.mul rest 1%nat in
        match firstn sz (skipn (j * sz) x_vec) with
        | [v] => Ok (ltb v zero)
        | _ => Raise (ValueError "The truth value of an array with more than one element is ambiguous")
        end
      else Raise (IndexError "index out of bounds")
  end.

(** lines 299-311: the body of [for i in range(len(P))] *)
Definition repair (sh : list nat) (AtA : matrix F) (AtB : vec F)
    (i : nat) (st : state F) : result (flow (state F)) :=
  let xP := gather (x_vec st) (P st) in
  let sP := gather (s st) (P st) in
  m <- tl_min (map2 div xP (vsub xP sP)) ;;
  let alpha := opp m in
  let update := vscale alpha (vsub sP xP) in
  let x_vec := scatter (x_vec st) (P st) (vadd xP update) in
  p_i <- item (P st) i ;;
  negative <- item_negative sh x_vec p_i ;;
  st <- (if negative then
           let R := R st ++ [p_i] in
           P <- list_remove p_i (P st) ;;
           sP <- solve_restricted AtA AtB P ;;
           let s := scatter (s st) P sP in
           r_i <- item R i ;;
           let x_vec :=
             if ltb zero (nth r_i s zero) then set_nth x_vec r_i (nth r_i s zero)
             else set_nth x_vec r_i zero in
           Ok {| x_vec := x_vec; w := w st; P := P; R := R; s := s;
                 update := Some update; rec_erroras := rec_erroras st |}
         else
           Ok {| x_vec := x_vec; w := w st; P := P st; R := R st; s := s st;
                 update := Some update; rec_erroras := rec_erroras st |}) ;;
  m <- tl_min (gather (s st) (P st)) ;;
  if ltb zero m then Ok (Break st) else Ok (Continue st).

(** lines 284-330: the body of [for iteration in range(n_iter_max)] *)
Definition active_set_iteration (sh : list nat) (AtA : matrix F)
    (AtB : vec F) (pseudo_inverse : list (matrix F))
    (iteration : Z) (st : state F) : result (flow (state F)) :=
  h <- iteration_head (w st) (P st) (R st) ;;
  match h with
  | Stop => Ok (Break st)
  | Pivot P R =>
      sP <- solve_restricted AtA AtB P ;;
      let s := scatter (s st) P sP in
      let st := {| x_vec := x_vec st; w := w st; P := P; R := R; s := s;
                   update := update st; rec_erroras := rec_erroras st |} in
      m <- tl_min (gather s P) ;;
      st <- (if leb m zero then
               for_each (repair sh AtA AtB) (seq 0 (length P)) st
             else
               Ok {| x_vec := scatter (x_vec st) P (gather s P); w := w st;
                     P := P; R := R; s := s;
                     update := update st; rec_erroras := rec_erroras st |}) ;;
      let x := reshape (x_vec st) sh in
      nrm <- match update st with
             | None => Raise (UnboundLocalError "update")
             | Some u => Ok (norm u)
             end ;;
      let second := tensor_to_vec (multi_mode_dot x pseudo_inverse false) in
      let w := vsub AtB second in
      let rec_erroras := rec_erroras st ++ [nrm] in
      let st := {| x_vec := x_vec st; w := w; P := ActiveSet.P st;
                   R := ActiveSet.R st; s := ActiveSet.s st;
                   update := update st; rec_erroras := rec_erroras |} in
      if iteration >=? 1 then
        e2 <- item (rev rec_erroras) 1 ;;
        e1 <- item (rev rec_erroras) 0 ;;
        let rec_error_decrease := sub e2 e1 in
        if forallb (leb zero) (x_vec st) || ltb rec_error_decrease zero
        then Ok (Break st)
        else if (length (ActiveSet.R st) =? 0)%nat then Ok (Break st)
        else Ok (Continue st)
      else Ok (Continue st)
  end.

Definition active_set_nnls (A : tensor F) (B : list (matrix F))
    (x : option (tensor F)) (n_iter_max : Z) : result (tensor F) :=
  let pseudo_inverse := map gram B in
  _ <- lookup G "multi_mode_dot" ;;
  let AtB := tensor_to_vec (multi_mode_dot A B true) in
  let AtA := kronecker pseudo_inverse in
  (* lines 275-278: without [x] the backend is handed [None], which has
     no shape *)
  x <- match x with
       | None =>
           Raise (AttributeError "'NoneType' object has no attribute 'shape'")
       | Some x => Ok x
       end ;;
  let x_vec := tensor_to_vec x in
  let second := tensor_to_vec (multi_mode_dot x pseudo_inverse false) in
  let w := vsub AtB second in
  let st := {| x_vec := x_vec; w := w; P := [];
               R := seq 0 (length w); s := repeat zero (length x_vec);
               update := None; rec_erroras := [] |} in
  st <- for_each (active_set_iteration (shape x) AtA AtB pseudo_inverse)
                 (range n_iter_max) st ;;
  Ok (reshape (ActiveSet.x_vec st) (shape x)).
End ActiveSet.

Definition default_n_iter_max : Z := 100.

End ActiveSet.

(** ** The statements of the specification, in its own words *)

Section SpecWords.
Context {F : Type} `{Scalar F}.

(** [1 + (rows*cols + cols*rank)/(rows*rank + rows)] *)
Definition complexity_formula (rows cols rank : nat) : F :=
  add one (div (of_Z (Z.of_nat rows * Z.of_nat cols
                      + Z.of_nat cols * Z.of_nat rank))
               (of_Z (Z.of_nat rows * Z.of_nat rank + Z.of_nat rows))).


(** The elementwise minimum of two tensors. *)
Definition tmin (a b : tensor F) : tensor F := twhere_lt a b a b.
End SpecWords.

(** ** Instances for the closed examples *)

(** [multi_mode_dot] on a tensor of order one and a single matrix: the
    product of the matrix, or of its transpose, with the vector. *)
Definition mode_dot_1d {F : Type} `{Scalar F} (t : tensor F)
    (Ms : list (matrix F)) (transposed : bool) : tensor F :=
  fold_left (fun t M =>
               let M' := if transposed then transpose M else M in
               {| shape := [nrows M']; data := dot_mv M' (data t) |})
            Ms t.

(** [kronecker] of a single matrix. *)
Definition kronecker_1 {F : Type} (Ms : list (matrix F)) : matrix F :=
  hd [] Ms.

(** The module had it imported the two names it uses unbound. *)
Definition bound_globals : namespace :=
  ("np" :: "multi_mode_dot" :: proximal_globals)%string.

Definition vector {F : Type} (v : vec F) : tensor F :=
  {| shape := [length v]; data := v |}.

(** ** [soft_thresholding] (lines 12-52) and [svd_thresholding] (lines 55-73) *)

Section Thresholding.
Context {F : Type} `{Scalar F}.

Local Abbreviation array := (tensor F).

(** [tl.sign]: -1, 0 or 1, and a NaN for a NaN. *)
Definition tl_sign (x : F) : F :=
  if isnan x then x
  else if ltb zero x then one
  else if ltb x zero then opp one
  else zero.

(** [tl.abs] *)
Definition tl_abs (x : F) : F :=
  if ltb x zero then opp x else if eqb x zero then zero else x.

(** [tl.clip(x, a_min=0)] of one entry *)
Definition clip_min0 (x : F) : F := if ltb x zero then zero else x.

(** line 52, on one entry *)
Definition soft_threshold (x threshold : F) : F :=
  mul (tl_sign x) (clip_min0 (sub (tl_abs x) threshold)).

(** line 52: [threshold] is a number, applied to every entry, or an array
    of the shape of [tensor], applied entry by entry. *)
Definition soft_thresholding (tensor : array) (threshold : F + array)
  : array :=
  match threshold with
  | inl t => tmap (fun x => soft_threshold x t) tensor
  | inr ts => tmap2 soft_threshold tensor ts
  end.

(** [tl.partial_svd(matrix, n_eigenvecs)]: the factors [U], [s], [V]. *)
Variable partial_svd :
  matrix F -> nat -> result (matrix F * vec F * matrix F).

(** [tl.reshape(s, (-1, 1)) * V]: row [i] of [V] scaled by [s[i]]. *)
Definition scale_rows (s : vec F) (V : matrix F) : matrix F :=
  map2 vscale s V.

(** lines 72-73; the threshold is a number *)
Definition svd_thresholding (M : matrix F) (threshold : F)
  : result (matrix F) :=
  '(U, s, V) <- partial_svd M (Nat.min (nrows M) (ncols M)) ;;
  Ok (matmul U (scale_rows
                  (data (soft_thresholding (vector s) (inl threshold))) V)).
End Thresholding.

(** A square root on the rationals for the closed examples: exact on the
    squares of rationals, rounded down in the numerator otherwise. *)
Definition Qsqrt_floor (x : Q) : Q :=
  Qred (Z.sqrt (Qnum x * Zpos (Qden x)) # Qden x).

(** * Properties *)

(** ** Loops *)

Lemma bind_Ok {A B : Type} (m : result A) (k : A -> result B) (b : B) :
  bind m k = Ok b -> exists a, m = Ok a /\ k a = Ok b.
Proof.
  destruct m as [a|e]; simpl; intros Hk; [exists a; auto | discriminate].
Qed.

Lemma range_succ (n : nat) :
  range (Z.of_nat (Datatypes.S n)) = range (Z.of_nat n) ++ [Z.of_nat n].
Proof.
  unfold range. rewrite !Nat2Z.id, seq_S, map_app. reflexivity.
Qed.

Lemma seq_shift_Z (a n : nat) :
  map Z.of_nat (seq (Datatypes.S a) n)
  = map (fun z => z + 1) (map Z.of_nat (seq a n)).
Proof.
  rewrite <- seq_shift, !map_map. apply map_ext. intros k. lia.
Qed.

(** A property kept by every iteration holds when the loop is left, with
    the number of iterations run. *)
Lemma for_each_invariant {I S : Type} (body : I -> S -> result (flow S))
    (Inv : nat -> S -> Prop) :
  (forall i s k s', Inv k s ->
     body i s = Ok (Continue s') \/ body i s = Ok (Break s') ->
     Inv (Datatypes.S k) s') ->
  forall items s k s',
    Inv k s -> for_each body items s = Ok s' ->
    exists k', (k <= k' <= k + length items)%nat /\ Inv k' s'.
Proof.
  intros Hstep. induction items as [|i items IH]; simpl; intros s k s' Hk Hrun.
  - injection Hrun as <-. exists k. split; [lia | assumption].
  - apply bind_Ok in Hrun as [fl [Hbody Hrest]].
    destruct fl as [s1|s1].
    + destruct (IH s1 (Datatypes.S k) s') as [k' [Hle Hk']]; eauto.
      exists k'. split; [lia | assumption].
    + injection Hrest as <-. exists (Datatypes.S k).
      split; [lia | eauto].
Qed.

(** ** The outer loop of [hals_nnls] *)

Section HalsLoop.
Context {F : Type} `{Scalar F}.
Variables UtM UtU : matrix F.
Variable sparsity_coefficient : option F.
Variables normalize nonzero_rows exact : bool.

Local Abbreviation pass :=
  (hals_pass UtM UtU sparsity_coefficient normalize nonzero_rows).
Local Abbreviation body :=
  (hals_iteration UtM UtU sparsity_coefficient normalize nonzero_rows exact).
Local Abbreviation run :=
  (hals_run UtM UtU sparsity_coefficient normalize nonzero_rows).

Lemma hals_pass_facts (j : Z) (V0 V : matrix F) (l : hals_locals F) :
  pass j V0 = Ok (V, l) ->
  hals_sweep UtM UtU sparsity_coefficient normalize nonzero_rows V0
    = Ok (V, rec_error l)
  /\ iteration l = j
  /\ rec_error0 l = (if j =? 1 then rec_error l else zero)
  /\ hals_complexity_ratio UtM V = Ok (complexity_ratio l).
Proof.
  unfold hals_pass. intros Hp.
  apply bind_Ok in Hp as [[V1 e] [Hsweep Hp]].
  apply bind_Ok in Hp as [cr [Hcr Hp]].
  injection Hp as <- <-. simpl. auto.
Qed.

Lemma hals_run_facts stop (a j : Z) (V0 V : matrix F) (l : hals_locals F) :
  run stop a V0 j V l ->
  a <= j
  /\ iteration l = j
  /\ rec_error0 l = (if j =? 1 then rec_error l else zero)
  /\ hals_complexity_ratio UtM V = Ok (complexity_ratio l).
Proof.
  induction 1 as [V l Hp | j V l V' l' Hrun IH Hstop Hp].
  - apply hals_pass_facts in Hp. intuition lia.
  - apply hals_pass_facts in Hp. intuition lia.
Qed.

Lemma hals_run_prepend stop (a j : Z) (V0 V1 V : matrix F)
    (l1 l : hals_locals F) :
  pass a V0 = Ok (V1, l1) -> stop l1 = false ->
  run stop (a + 1) V1 j V l -> run stop a V0 j V l.
Proof.
  intros Hp Hstop Hrun.
  induction Hrun as [V l Hp' | j V l V' l' Hrun IH Hstop' Hp'].
  - eapply run_next; eauto. apply run_first; assumption.
  - eapply run_next; eauto.
Qed.

Lemma hals_run_head stop (a j : Z) (V0 V : matrix F) (l : hals_locals F) :
  run stop a V0 j V l -> a < j ->
  exists V1 l1, pass a V0 = Ok (V1, l1) /\ stop l1 = false
                /\ run stop (a + 1) V1 j V l.
Proof.
  induction 1 as [V l Hp | j V l V' l' Hrun IH Hstop Hp]; intros Hlt.
  - lia.
  - destruct (Z.eq_dec a j) as [<- | Hne].
    + inversion Hrun; subst.
      * exists V, l. repeat split; auto. apply run_first; assumption.
      * apply hals_run_facts in H0. lia.
    + pose proof (hals_run_facts Hrun) as [Hle _].
      destruct IH as [V1 [l1 [Hp1 [Hs1 Hrun1]]]]; [lia|].
      exists V1, l1. repeat split; auto. eapply run_next; eauto.
Qed.

(** What the loop leaves behind, started at index [a]. *)
Lemma hals_loop_sound (tol : F) (n a : nat) (V0 V' : matrix F)
    (lprev l' : option (hals_locals F)) :
  for_each (body tol) (map Z.of_nat (seq a n)) (V0, lprev) = Ok (V', l') ->
  (n = O /\ V' = V0 /\ l' = lprev)
  \/ exists l, l' = Some l
       /\ run (hals_stop exact tol) (Z.of_nat a) V0 (iteration l) V' l
       /\ Z.of_nat a <= iteration l < Z.of_nat a + Z.of_nat n
       /\ (hals_stop exact tol l = true
           \/ iteration l = Z.of_nat a + Z.of_nat n - 1).
Proof.
  revert a V0 lprev.
  induction n as [|n IH]; intros a V0 lprev Hrun.
  - left. simpl in Hrun. injection Hrun as <- <-. auto.
  - right. simpl in Hrun.
    apply bind_Ok in Hrun as [fl [Hbody Hrest]].
    unfold hals_iteration in Hbody. simpl fst in Hbody.
    apply bind_Ok in Hbody as [[V1 l1] [Hp Hfl]].
    pose proof (hals_pass_facts _ _ Hp) as [_ [Hit _]].
    destruct (hals_stop exact tol l1) eqn:Hstop.
    + injection Hfl as <-. injection Hrest as <- <-.
      exists l1. rewrite Hit.
      repeat split; auto; try lia. apply run_first; assumption.
    + injection Hfl as <-.
      apply IH in Hrest as [[-> [-> ->]] | [l [-> [Hr [Hb Hs]]]]].
      * exists l1. rewrite Hit.
        repeat split; auto; try lia. apply run_first; assumption.
      * exists l. replace (Z.of_nat (Datatypes.S a)) with (Z.of_nat a + 1)
          in * by lia.
        repeat split; try lia.
        -- eapply hals_run_prepend; eauto.
        -- destruct Hs; [left; assumption | right; lia].
Qed.

(** Conversely the loop does stop at the first iteration that meets the
    test, or at the last one. *)
Lemma hals_loop_complete (tol : F) (n a : nat) (V0 V : matrix F)
    (lprev : option (hals_locals F)) (l : hals_locals F) :
  run (hals_stop exact tol) (Z.of_nat a) V0 (iteration l) V l ->
  iteration l < Z.of_nat a + Z.of_nat n ->
  hals_stop exact tol l = true \/ iteration l = Z.of_nat a + Z.of_nat n - 1 ->
  for_each (body tol) (map Z.of_nat (seq a n)) (V0, lprev) = Ok (V, Some l).
Proof.
  revert a V0 lprev.
  induction n as [|n IH]; intros a V0 lprev Hrun Hlt Hend.
  - apply hals_run_facts in Hrun. lia.
  - simpl. unfold hals_iteration at 1. simpl fst.
    destruct (Z.eq_dec (Z.of_nat a) (iteration l)) as [Heq | Hne].
    + inversion Hrun as [V1 l1 Hp | j V1 l1 V2 l2 Hr Hs Hp]; subst.
      * rewrite Hp. simpl.
        destruct (hals_stop exact tol l) eqn:Hstop; simpl; [reflexivity|].
        destruct Hend as [Hc | Hlast]; [discriminate|].
        assert (n = O) by lia. subst n. reflexivity.
      * pose proof (hals_pass_facts _ _ Hp) as [_ [Hit _]].
        apply hals_run_facts in Hr as [Hle _]. exfalso. lia.
    + pose proof (hals_run_facts Hrun) as [Hle _].
      destruct (hals_run_head Hrun) as [V1 [l1 [Hp [Hs Hr]]]]; [lia|].
      rewrite Hp. simpl. rewrite Hs.
      replace (Z.of_nat a + 1) with (Z.of_nat (Datatypes.S a)) in Hr by lia.
      apply IH; [assumption | lia |].
      destruct Hend as [Hc | Hlast]; [left; assumption | right; lia].
Qed.
End HalsLoop.

(** ** What [hals_nnls] returns *)

Section HalsReturn.
Context {F : Type} `{Scalar F}.
Variable solve : matrix F -> matrix F -> result (matrix F).
Variable dot_sm : F -> matrix F -> result (matrix F).
Variables UtM UtU : matrix F.
Variable sparsity_coefficient : option F.
Variables normalize nonzero_rows exact : bool.

Local Abbreviation run :=
  (hals_run UtM UtU sparsity_coefficient normalize nonzero_rows).
Local Abbreviation nnls :=
  (hals_nnls solve dot_sm UtM UtU sparsity_coefficient normalize nonzero_rows exact).
Local Abbreviation start := (hals_start solve dot_sm UtM UtU).

Lemma range_of_nat (n : Z) : range n = map Z.of_nat (seq 0 (Z.to_nat n)).
Proof. reflexivity. Qed.

(** The call returns exactly the values of the first iteration that meets
    the test of lines 243-248, or of the last iteration of the range. *)
Lemma hals_nnls_returns (V : option (matrix F)) (n_iter_max : Z) (tol : F)
    (V0 Vr : matrix F) (e : F) (it : Z) (cr : F) :
  start V = Ok V0 ->
  (nnls V n_iter_max tol = Ok (Vr, e, it, cr)
   <-> exists l,
        run (hals_stop exact (effective_tol exact tol)) 0 V0 it Vr l
        /\ e = rec_error l /\ it = iteration l /\ cr = complexity_ratio l
        /\ it < effective_n_iter_max exact n_iter_max
        /\ (hals_stop exact (effective_tol exact tol) l = true
            \/ it = effective_n_iter_max exact n_iter_max - 1)).
Proof.
  intros Hstart. unfold hals_nnls. rewrite Hstart. simpl bind.
  rewrite range_of_nat.
  set (N := effective_n_iter_max exact n_iter_max).
  set (tol' := effective_tol exact tol).
  split.
  - intros Hret. apply bind_Ok in Hret as [[V' l'] [Hloop Hret]].
    apply hals_loop_sound in Hloop
      as [[_ [_ ->]] | [l [-> [Hrun [Hb Hs]]]]]; [discriminate|].
    injection Hret as <- <- <- <-.
    exists l. change (Z.of_nat 0) with 0 in *.
    assert (0 < N) by lia.
    rewrite Z2Nat.id in * by lia.
    repeat split; auto; lia.
  - intros [l [Hrun [-> [-> [-> [Hlt Hend]]]]]].
    pose proof (hals_run_facts Hrun) as [Hle _].
    rewrite (@hals_loop_complete F _ UtM UtU sparsity_coefficient normalize
               nonzero_rows exact tol' (Z.to_nat N) 0 V0 Vr None l).
    + reflexivity.
    + exact Hrun.
    + change (Z.of_nat 0) with 0. rewrite Z2Nat.id by lia. lia.
    + change (Z.of_nat 0) with 0. rewrite Z2Nat.id by lia.
      destruct Hend; [left; assumption | right; lia].
Qed.

(** A call that returns went through its start. *)
Lemma hals_nnls_started (V : option (matrix F)) (n_iter_max : Z) (tol : F)
    (r : matrix F * F * Z * F) :
  nnls V n_iter_max tol = Ok r -> exists V0, start V = Ok V0.
Proof.
  unfold hals_nnls. intros Hret.
  apply bind_Ok in Hret as [V0 [Hstart _]]. eauto.
Qed.

(** With no iteration to run, [rec_error] is unbound at line 250. *)
Lemma hals_nnls_no_iteration (V : option (matrix F)) (n_iter_max : Z)
    (tol : F) (V0 : matrix F) :
  start V = Ok V0 ->
  effective_n_iter_max exact n_iter_max <= 0 ->
  nnls V n_iter_max tol = Raise (UnboundLocalError "rec_error").
Proof.
  intros Hstart Hn. unfold hals_nnls. rewrite Hstart. simpl bind.
  unfold range. destruct (effective_n_iter_max exact n_iter_max); try lia;
    reflexivity.
Qed.

Lemma hals_iteration_lt (V : option (matrix F)) (n_iter_max : Z) (tol : F)
    (Vr : matrix F) (e : F) (it : Z) (cr : F) :
  nnls V n_iter_max tol = Ok (Vr, e, it, cr) ->
  0 <= it < effective_n_iter_max exact n_iter_max.
Proof.
  intros Hret.
  destruct (hals_nnls_started _ _ _ Hret) as [V0 Hstart].
  destruct (proj1 (hals_nnls_returns V n_iter_max tol Vr e it cr Hstart) Hret)
    as [l [Hrun [_ [_ [_ [Hlt _]]]]]].
  apply hals_run_facts in Hrun. lia.
Qed.

Lemma hals_complexity_ratio_formula (V : matrix F) (cr : F) :
  hals_complexity_ratio UtM V = Ok cr ->
  cr = complexity_formula (nrows V) (ncols V) (nrows UtM).
Proof.
  unfold hals_complexity_ratio, complexity_formula, rank.
  destruct (_ =? 0); [discriminate|]. intros Hcr. injection Hcr as <-.
  reflexivity.
Qed.
End HalsReturn.

(** ** Claims on the outer loop of [hals_nnls] *)

(** C10: every call of [hals_nnls] that returns gives an [iteration] with
    [0 <= iteration <= n_iter_max], where [n_iter_max] is 5000 when
    [exact] is set.  (The bound holds whatever the sign of the configured
    [n_iter_max]: with none to run the call does not return.) *)
Theorem hals_iteration_bounds :
  forall (F : Type) (SF : Scalar F)
         (solve : matrix F -> matrix F -> result (matrix F))
         (dot_sm : F -> matrix F -> result (matrix F))
         (UtM UtU : matrix F) (sparsity_coefficient : option F)
         (normalize nonzero_rows exact : bool)
         (V : option (matrix F)) (n_iter_max : Z) (tol : F)
         (Vr : matrix F) (e : F) (it : Z) (cr : F),
    hals_nnls solve dot_sm UtM UtU sparsity_coefficient normalize nonzero_rows exact
              V n_iter_max tol = Ok (Vr, e, it, cr) ->
    0 <= it <= (if exact then 5000 else n_iter_max).
Proof.
  intros F SF solve dot_sm UtM UtU sc nz nr exact V n tol Vr e it cr Hret.
  apply hals_iteration_lt in Hret. unfold effective_n_iter_max in Hret.
  lia.
Qed.

Lemma hals_iteration_bounds_witness :
  hals_nnls gauss_solve dot_sm_method
            [[2; 0]; [0; 3]]%float [[1; 0]; [0; 1]]%float
            None false false false (Some [[2; 0]; [0; 3]]%float) 500
            default_tol
  = Ok ([[2; 0]; [0; 3]]%float, 0%float, 3,
        PrimFloat.add 1 (PrimFloat.div 8 6))
  /\ 0 <= 3 <= 500.
Proof.
  assert (Hrun :
    hals_nnls gauss_solve dot_sm_method
              [[2; 0]; [0; 3]]%float [[1; 0]; [0; 1]]%float
              None false false false (Some [[2; 0]; [0; 3]]%float) 500
              default_tol
    = Ok ([[2; 0]; [0; 3]]%float, 0%float, 3,
          PrimFloat.add 1 (PrimFloat.div 8 6))).
  { vm_compute. reflexivity. }
  split; [exact Hrun|].
  exact (hals_iteration_bounds _ _ _ _ _ _ _ _ _ _ _ _ Hrun).
Defined.

(** C9: with [exact=False] the outer loop of [hals_nnls] is left at an
    iteration exactly when [rec_error < tol*rec_error0] holds there or the
    iteration index exceeds [1 + 0.5*complexity_ratio] (or the range is
    used up), none of the earlier iterations having met the test; and the
    [complexity_ratio] returned is
    [1 + (rows*cols + cols*rank)/(rows*rank + rows)] for the shape of [V]. *)
Theorem hals_approx_stopping :
  forall (F : Type) (SF : Scalar F)
         (solve : matrix F -> matrix F -> result (matrix F))
         (dot_sm : F -> matrix F -> result (matrix F))
         (UtM UtU : matrix F) (sparsity_coefficient : option F)
         (normalize nonzero_rows : bool)
         (V : option (matrix F)) (n_iter_max : Z) (tol : F) (V0 : matrix F),
    hals_start solve dot_sm UtM UtU V = Ok V0 ->
    (forall (Vr : matrix F) (e : F) (it : Z) (cr : F),
        hals_nnls solve dot_sm UtM UtU sparsity_coefficient normalize nonzero_rows
                  false V n_iter_max tol = Ok (Vr, e, it, cr)
        <-> exists l,
             hals_run UtM UtU sparsity_coefficient normalize nonzero_rows
                      (stop_approx tol) 0 V0 it Vr l
             /\ e = rec_error l /\ it = iteration l
             /\ cr = complexity_ratio l
             /\ it < n_iter_max
             /\ (ltb (rec_error l) (mul tol (rec_error0 l))
                 || ltb (add one (mul (lit (5 # 10)) (complexity_ratio l)))
                        (of_Z (iteration l)) = true
                 \/ it = n_iter_max - 1))
    /\ (forall (Vr : matrix F) (e : F) (it : Z) (cr : F),
           hals_nnls solve dot_sm UtM UtU sparsity_coefficient normalize nonzero_rows
                     false V n_iter_max tol = Ok (Vr, e, it, cr) ->
           cr = complexity_formula (nrows Vr) (ncols Vr) (nrows UtM)).
Proof.
  intros F SF solve dot_sm UtM UtU sc nz nr V n tol V0 Hstart.
  split.
  - intros Vr e it cr.
    exact (hals_nnls_returns solve dot_sm UtM UtU sc nz nr false V n tol Vr e it cr
                             Hstart).
  - intros Vr e it cr Hret.
    destruct (proj1 (hals_nnls_returns solve dot_sm UtM UtU sc nz nr false V n tol
                                       Vr e it cr Hstart) Hret)
      as [l [Hrun [_ [_ [-> _]]]]].
    apply hals_run_facts in Hrun as [_ [_ [_ Hcr]]].
    apply hals_complexity_ratio_formula. exact Hcr.
Qed.

Lemma hals_approx_stopping_witness :
  hals_start gauss_solve dot_sm_method
             [[2; 0]; [0; 3]]%float [[1; 0]; [0; 1]]%float
             (Some [[2; 0]; [0; 3]]%float)
  = Ok [[2; 0]; [0; 3]]%float
  /\ PrimFloat.add 1 (PrimFloat.div 8 6)
     = complexity_formula (nrows [[2; 0]; [0; 3]]%float)
                          (ncols [[2; 0]; [0; 3]]%float)
                          (nrows [[2; 0]; [0; 3]]%float).
Proof.
  assert (Hstart :
    hals_start gauss_solve dot_sm_method
               [[2; 0]; [0; 3]]%float [[1; 0]; [0; 1]]%float
               (Some [[2; 0]; [0; 3]]%float)
    = Ok [[2; 0]; [0; 3]]%float).
  { vm_compute. reflexivity. }
  split; [exact Hstart|].
  refine (proj2 (hals_approx_stopping _ gauss_solve dot_sm_method _ _ None
                   false false (Some [[2; 0]; [0; 3]]%float) 500 default_tol
                   Hstart) _ _ _ _ _).
  vm_compute. reflexivity.
Defined.

(** C2, as the code has it: [rec_error0] takes the value of [rec_error] at
    outer-iteration index 1; with [exact=True] the loop runs over
    [range(5000)] with the tolerance [10e-12], and it is left before its
    last iteration exactly at the first iteration whose own test
    [rec_error < tol*rec_error0] succeeds. *)
Theorem hals_exact_stopping :
  forall (F : Type) (SF : Scalar F)
         (solve : matrix F -> matrix F -> result (matrix F))
         (dot_sm : F -> matrix F -> result (matrix F))
         (UtM UtU : matrix F) (sparsity_coefficient : option F)
         (normalize nonzero_rows : bool)
         (V : option (matrix F)) (n_iter_max : Z) (tol : F) (V0 : matrix F),
    hals_start solve dot_sm UtM UtU V = Ok V0 ->
    (forall (Vr : matrix F) (e : F) (it : Z) (cr : F),
        hals_nnls solve dot_sm UtM UtU sparsity_coefficient normalize nonzero_rows
                  true V n_iter_max tol = Ok (Vr, e, it, cr)
        <-> exists l,
             hals_run UtM UtU sparsity_coefficient normalize nonzero_rows
                      (stop_exact (lit (10 # 1000000000000))) 0 V0 it Vr l
             /\ e = rec_error l /\ it = iteration l
             /\ cr = complexity_ratio l
             /\ it < 5000
             /\ (ltb (rec_error l)
                     (mul (lit (10 # 1000000000000)) (rec_error0 l)) = true
                 \/ it = 4999))
    /\ (forall (stop : hals_locals F -> bool) (V1 : matrix F)
               (l1 : hals_locals F),
           hals_run UtM UtU sparsity_coefficient normalize nonzero_rows
                    stop 0 V0 1 V1 l1 ->
           rec_error0 l1 = rec_error l1).
Proof.
  intros F SF solve dot_sm UtM UtU sc nz nr V n tol V0 Hstart.
  split.
  - intros Vr e it cr.
    exact (hals_nnls_returns solve dot_sm UtM UtU sc nz nr true V n tol Vr e it cr
                             Hstart).
  - intros stop V1 l1 Hrun.
    apply hals_run_facts in Hrun as [_ [_ [H0 _]]]. exact H0.
Qed.

Lemma hals_exact_stopping_witness :
  hals_start gauss_solve dot_sm_method [[1]; [-1]]%float [[1; 0.5]; [0.5; 1]]%float
             (Some [[0]; [1]]%float) = Ok [[0]; [1]]%float
  /\ exists l,
       hals_run [[1]; [-1]]%float [[1; 0.5]; [0.5; 1]]%float None false false
                (stop_exact (lit (10 # 1000000000000))) 0 [[0]; [1]]%float
                4999 [[1]; [0]]%float l
       /\ 0%float = rec_error l /\ 4999 = iteration l
       /\ PrimFloat.add 1 (PrimFloat.div 4 6) = complexity_ratio l
       /\ 4999 < 5000
       /\ (ltb (rec_error l)
               (mul (lit (10 # 1000000000000)) (rec_error0 l)) = true
           \/ 4999 = 4999).
Proof.
  split; [reflexivity|].
  refine (proj1 (proj1 (hals_exact_stopping _ gauss_solve dot_sm_method
                          [[1]; [-1]]%float [[1; 0.5]; [0.5; 1]]%float
                          None false false (Some [[0]; [1]]%float) 500
                          default_tol eq_refl)
                       [[1]; [0]]%float 0%float 4999
                       (PrimFloat.add 1 (PrimFloat.div 4 6))) _).
  vm_compute. reflexivity.
Defined.

(** Against C2 as stated.  On [UtM = [[1],[-1]]], [UtU = [[1,0.5],[0.5,1]]]
    and the start [V = [[0],[1]]], the sweeps at index 0, 1 and 2 have
    [rec_error] 1.25, 0.25 and 0: the third is below [1e-12] times the value
    captured at index 1.  The test of that sweep is made against a
    [rec_error0] that line 205 has set back to 0, and the call uses up its
    5000 iterations; the tolerance it runs with is [10e-12], not [1e-12]. *)
Lemma hals_exact_baseline_reset :
  PrimFloat.eqb (effective_tol true default_tol) (lit (1 # 1000000000000))
  = false
  /\ hals_pass [[1]; [-1]]%float [[1; 0.5]; [0.5; 1]]%float None false false
               0 [[0]; [1]]%float
     = Ok ([[0.5]; [0]]%float,
           {| rec_error := 1.25%float; rec_error0 := 0%float; iteration := 0;
              complexity_ratio := PrimFloat.add 1 (PrimFloat.div 4 6) |})
  /\ hals_pass [[1]; [-1]]%float [[1; 0.5]; [0.5; 1]]%float None false false
               1 [[0.5]; [0]]%float
     = Ok ([[1]; [0]]%float,
           {| rec_error := 0.25%float; rec_error0 := 0.25%float;
              iteration := 1;
              complexity_ratio := PrimFloat.add 1 (PrimFloat.div 4 6) |})
  /\ hals_pass [[1]; [-1]]%float [[1; 0.5]; [0.5; 1]]%float None false false
               2 [[1]; [0]]%float
     = Ok ([[1]; [0]]%float,
           {| rec_error := 0%float; rec_error0 := 0%float; iteration := 2;
              complexity_ratio := PrimFloat.add 1 (PrimFloat.div 4 6) |})
  /\ PrimFloat.ltb 0%float
       (PrimFloat.mul (lit (1 # 1000000000000)) 0.25%float) = true
  /\ hals_nnls gauss_solve dot_sm_method [[1]; [-1]]%float [[1; 0.5]; [0.5; 1]]%float
               None false false true (Some [[0]; [1]]%float) 500 default_tol
     = Ok ([[1]; [0]]%float, 0%float, 4999,
           PrimFloat.add 1 (PrimFloat.div 4 6)).
Proof.
  repeat split; vm_compute; reflexivity.
Qed.

(** C5, as the code has it: on [UtM = [[2,0],[0,3]]], [UtU] the identity
    and the default options, a call of [hals_nnls] that starts from
    [V = [[2,0],[0,3]]], passed as [V] or computed by lines 192-198, leaves
    its loop at iteration 3, the first index above
    [1 + 0.5*complexity_ratio = 13/6], and returns [rec_error = 0] and
    [V = [[2,0],[0,3]]]. *)
Theorem hals_identity_example :
  forall (solve : matrix float -> matrix float -> result (matrix float))
         (dot_sm : float -> matrix float -> result (matrix float))
         (V : option (matrix float)),
    hals_start solve dot_sm [[2; 0]; [0; 3]]%float [[1; 0]; [0; 1]]%float V
    = Ok [[2; 0]; [0; 3]]%float ->
    hals_nnls solve dot_sm [[2; 0]; [0; 3]]%float [[1; 0]; [0; 1]]%float
              None false false false V default_n_iter_max default_tol
    = Ok ([[2; 0]; [0; 3]]%float, 0%float, 3,
          PrimFloat.add 1 (PrimFloat.div 8 6)).
Proof.
  intros solve dot_sm V Hstart.
  unfold hals_nnls. rewrite Hstart.
  vm_compute. reflexivity.
Qed.

Lemma hals_identity_example_witness :
  hals_start gauss_solve dot_sm_method
             [[2; 0]; [0; 3]]%float [[1; 0]; [0; 1]]%float
             (Some [[2; 0]; [0; 3]]%float)
  = Ok [[2; 0]; [0; 3]]%float
  /\ hals_nnls gauss_solve dot_sm_method
               [[2; 0]; [0; 3]]%float [[1; 0]; [0; 1]]%float
               None false false false (Some [[2; 0]; [0; 3]]%float)
               default_n_iter_max default_tol
     = Ok ([[2; 0]; [0; 3]]%float, 0%float, 3,
           PrimFloat.add 1 (PrimFloat.div 8 6)).
Proof.
  split; [reflexivity|].
  exact (hals_identity_example gauss_solve dot_sm_method
           (Some [[2; 0]; [0; 3]]%float) eq_refl).
Defined.

(** Against C5 as stated.  Without a start the call comes to line 198:
    where the backend's [dot] is the method of its first argument, the call
    raises there and returns nothing; where it is the product by the
    number, and where the same start is passed as [V], the iteration
    returned is 3, not at most 1. *)
Lemma hals_identity_example_iteration :
  hals_nnls gauss_solve dot_sm_method
            [[2; 0]; [0; 3]]%float [[1; 0]; [0; 1]]%float
            None false false false None default_n_iter_max default_tol
  = Raise (AttributeError "'numpy.float64' object has no attribute 'dot'")
  /\ (exists (Vr : matrix float) (e : float) (it : Z) (cr : float),
         hals_nnls gauss_solve dot_sm_numpy
                   [[2; 0]; [0; 3]]%float [[1; 0]; [0; 1]]%float
                   None false false false None default_n_iter_max
                   default_tol
         = Ok (Vr, e, it, cr)
         /\ ~ it <= 1)
  /\ (exists (Vr : matrix float) (e : float) (it : Z) (cr : float),
         hals_nnls gauss_solve dot_sm_method
                   [[2; 0]; [0; 3]]%float [[1; 0]; [0; 1]]%float
                   None false false false (Some [[2; 0]; [0; 3]]%float)
                   default_n_iter_max default_tol
         = Ok (Vr, e, it, cr)
         /\ ~ it <= 1).
Proof.
  split; [vm_compute; reflexivity|].
  split;
    (exists [[2; 0]; [0; 3]]%float, 0%float, 3,
            (PrimFloat.add 1 (PrimFloat.div 8 6));
     split; [vm_compute; reflexivity | lia]).
Qed.

(** ** The degenerate column of [hals_nnls] (lines 208-228) *)

Lemma for_each_Raise {I S : Type} (body : I -> S -> result (flow S))
    (items : list I) (s : S) (e : exn) :
  for_each body items s = Raise e ->
  exists i s', In i items /\ body i s' = Raise e.
Proof.
  revert s. induction items as [|i items IH]; simpl; intros s Hr.
  - discriminate.
  - destruct (body i s) as [[s1|s1]|e0] eqn:Hbody; simpl in Hr.
    + destruct (IH _ Hr) as [i' [s' [Hin Hb]]]. exists i', s'. auto.
    + discriminate.
    + injection Hr as ->. exists i, s. auto.
Qed.

Lemma for_each_app_nobreak {I S : Type} (f : I -> S -> result S)
    (l1 l2 : list I) (s : S) :
  for_each (fun i st => st' <- f i st ;; Ok (Continue st')) (l1 ++ l2) s
  = s1 <- for_each (fun i st => st' <- f i st ;; Ok (Continue st')) l1 s ;;
    for_each (fun i st => st' <- f i st ;; Ok (Continue st')) l2 s1.
Proof.
  revert s. induction l1 as [|i l1 IH]; simpl; intros s.
  - reflexivity.
  - destruct (f i s) as [s1|e]; simpl; auto.
Qed.

Section RowLemmas.
Context {F : Type} `{Scalar F}.

Lemma row_set_row_other (V : matrix F) (j k : nat) (r : vec F) :
  j <> k -> row (set_row V j r) k = row V k.
Proof.
  unfold row. revert j k.
  induction V as [|r0 V IH]; intros [|j] [|k] Hne; simpl; auto;
    try congruence.
Qed.

Lemma row_nonempty_concat (V : matrix F) (k : nat) :
  row V k <> [] -> concat V <> [].
Proof.
  unfold row. revert k.
  induction V as [|r0 V IH]; intros [|k]; simpl; try congruence.
  - intros Hne Hc. apply app_eq_nil in Hc as [-> _]. congruence.
  - intros Hne Hc. apply app_eq_nil in Hc as [_ Hc]. eapply IH; eauto.
Qed.

Lemma tl_max_nonempty (a : vec F) :
  a <> [] -> exists m, tl_max a = Ok m.
Proof.
  destruct a as [|x a]; [congruence|]. intros _. simpl. eauto.
Qed.
End RowLemmas.

Section Degenerate.
Context {F : Type} `{Scalar F}.
Variable solve : matrix F -> matrix F -> result (matrix F).
Variable dot_sm : F -> matrix F -> result (matrix F).
Variables UtM UtU : matrix F.
Variable sparsity_coefficient : option F.
Variables normalize nonzero_rows exact : bool.

Local Abbreviation hrow :=
  (hals_row UtM UtU sparsity_coefficient normalize nonzero_rows).
Local Abbreviation sweep :=
  (hals_sweep UtM UtU sparsity_coefficient normalize nonzero_rows).
Local Abbreviation nnls :=
  (hals_nnls solve dot_sm UtM UtU sparsity_coefficient normalize nonzero_rows exact).

(** Only line 228 raises the error of the degenerate column. *)
Lemma hals_row_Raise (k k' : nat) (st : matrix F * F) :
  hrow k st = Raise (degenerate_column k') ->
  nonzero_rows = true /\ eqb (entry UtU k k) zero = true.
Proof.
  destruct st as [V e]. unfold hals_row, truthy, degenerate_column.
  destruct (eqb (entry UtU k k) zero); simpl negb; cbv iota.
  - destruct nonzero_rows; [auto|].
    simpl. destruct normalize; [|discriminate].
    unfold normalize_row.
    destruct (negb _); simpl; [discriminate|].
    destruct (eqb (sqrt _) zero); simpl; discriminate.
  - intros Hr. exfalso. revert Hr.
    match goal with |- context [set_row V k ?r] => generalize (set_row V k r) end.
    intros V1.
    destruct (nonzero_rows && all_zero (row V1 k)).
    + destruct (tl_max (concat V1)) as [m|e0] eqn:Hmax; simpl.
      * destruct normalize; [|discriminate].
        unfold normalize_row.
        destruct (negb _); simpl; [discriminate|].
        destruct (eqb (sqrt _) zero); simpl; discriminate.
      * unfold tl_max in Hmax. destruct (concat V1); [|discriminate].
        injection Hmax as <-. discriminate.
    + simpl. destruct normalize; [|discriminate].
      unfold normalize_row.
      destruct (negb _); simpl; [discriminate|].
      destruct (eqb (sqrt _) zero); simpl; discriminate.
Qed.

Lemma hals_sweep_Raise (V : matrix F) (k' : nat) :
  sweep V = Raise (degenerate_column k') ->
  nonzero_rows = true
  /\ exists k, (k < nrows UtM)%nat /\ eqb (entry UtU k k) zero = true.
Proof.
  unfold hals_sweep. intros Hr.
  apply for_each_Raise in Hr as [k [st [Hin Hr]]].
  apply in_seq in Hin.
  destruct (hrow k st) as [st'|e] eqn:Hrow; simpl in Hr; [discriminate|].
  injection Hr as ->. apply hals_row_Raise in Hrow as [Hnz Hz].
  split; [assumption|]. exists k. unfold rank in Hin. split; [lia | assumption].
Qed.

(** A call that has its start raises that error only from line 228. *)
Lemma hals_nnls_Raise (V : option (matrix F)) (n_iter_max : Z) (tol : F)
    (V0 : matrix F) (k' : nat) :
  hals_start solve dot_sm UtM UtU V = Ok V0 ->
  nnls V n_iter_max tol = Raise (degenerate_column k') ->
  nonzero_rows = true
  /\ exists k, (k < nrows UtM)%nat /\ eqb (entry UtU k k) zero = true.
Proof.
  intros Hstart. unfold hals_nnls. rewrite Hstart. simpl bind.
  destruct (for_each _ _ _) as [[V' [l'|]]|e] eqn:Hloop; simpl;
    try discriminate.
  intros He. injection He as ->.
  apply for_each_Raise in Hloop as [it [st [_ Hit]]].
  unfold hals_iteration in Hit.
  destruct (hals_pass _ _ _ _ _ it (fst st)) as [[V1 l1]|e] eqn:Hp;
    simpl in Hit.
  - destruct (hals_stop _ _ _); discriminate.
  - injection Hit as ->. unfold hals_pass in Hp.
    destruct (sweep (fst st)) as [[V2 e2]|e] eqn:Hsw; simpl in Hp.
    + unfold hals_complexity_ratio in Hp.
      destruct (_ =? 0); simpl in Hp; discriminate.
    + injection Hp as ->. eapply hals_sweep_Raise; eauto.
Qed.

(** A row with a nonzero diagonal entry is processed without error, and
    leaves the other rows as they are. *)
Lemma hals_row_Ok (j k : nat) (V : matrix F) (e : F) :
  eqb (entry UtU j j) zero = false ->
  j <> k -> row V k <> [] ->
  (normalize = true ->
   eqb (sqrt (of_Z (Z.of_nat (ncols UtM)))) zero = false) ->
  exists V' e', hrow j (V, e) = Ok (V', e') /\ row V' k = row V k.
Proof.
  intros Hd Hne Hk Hsqrt. unfold hals_row, truthy. rewrite Hd. simpl negb.
  cbv iota.
  match goal with |- context [set_row V j ?r] => set (V1 := set_row V j r) end.
  match goal with |- context [add e ?d] => generalize (add e d) end.
  intros e1.
  assert (H1 : row V1 k = row V k) by (apply row_set_row_other; assumption).
  assert (Hnorm : forall V2, row V2 k = row V k ->
            exists V' e',
              (if normalize
               then V3 <- normalize_row UtM V2 j ;; Ok (V3, e1)
               else Ok (V2, e1)) = Ok (V', e') /\ row V' k = row V k).
  { intros V2 H2. destruct normalize.
    - unfold normalize_row.
      destruct (negb _); simpl.
      + eexists _, _. split; [reflexivity|].
        rewrite row_set_row_other; assumption.
      + unfold n_col_M. rewrite (Hsqrt eq_refl). simpl.
        eexists _, _. split; [reflexivity|].
        rewrite row_set_row_other; assumption.
    - eexists _, _. split; [reflexivity | assumption]. }
  destruct (nonzero_rows && all_zero (row V1 j)).
  - destruct (tl_max_nonempty (a := concat V1)) as [m Hm].
    { apply row_nonempty_concat with (k := k). congruence. }
    rewrite Hm. simpl. apply Hnorm.
    rewrite row_set_row_other; assumption.
  - simpl. apply Hnorm. assumption.
Qed.

(** The rows before the first zero diagonal entry go through. *)
Lemma hals_rows_before (k : nat) (items : list nat) (st : matrix F * F) :
  (forall j, In j items -> (j < k)%nat) ->
  (forall j, (j < k)%nat -> eqb (entry UtU j j) zero = false) ->
  row (fst st) k <> [] ->
  (normalize = true ->
   eqb (sqrt (of_Z (Z.of_nat (ncols UtM)))) zero = false) ->
  exists st',
    for_each (fun j st => st' <- hrow j st ;; Ok (Continue st')) items st
    = Ok st'
    /\ row (fst st') k = row (fst st) k.
Proof.
  intros Hitems Hdiag Hk Hsqrt. revert st Hk.
  induction items as [|j items IH]; intros [V e] Hk; cbn [for_each];
    cbn [fst] in Hk.
  - eexists. split; reflexivity.
  - destruct (@hals_row_Ok j k V e) as [V' [e' [Hrow Hsame]]]; auto.
    { apply Hdiag, Hitems. left. reflexivity. }
    { assert (j < k)%nat by (apply Hitems; left; reflexivity). lia. }
    rewrite Hrow. cbn [bind].
    destruct (IH (fun j' Hin => Hitems j' (or_intror Hin)) (V', e'))
      as [st' [Hloop Hsame']].
    { cbn [fst]. congruence. }
    exists st'. split; [assumption|]. cbn [fst] in *. congruence.
Qed.

(** The sweep stops with the error at the first zero diagonal entry. *)
Lemma hals_sweep_degenerate (k : nat) (V : matrix F) :
  nonzero_rows = true ->
  (k < nrows UtM)%nat ->
  eqb (entry UtU k k) zero = true ->
  (forall j, (j < k)%nat -> eqb (entry UtU j j) zero = false) ->
  row V k <> [] ->
  (normalize = true ->
   eqb (sqrt (of_Z (Z.of_nat (ncols UtM)))) zero = false) ->
  sweep V = Raise (degenerate_column k).
Proof.
  intros Hnz Hlt Hz Hdiag Hk Hsqrt. unfold hals_sweep, rank.
  replace (nrows UtM) with (k + Datatypes.S (nrows UtM - k - 1))%nat by lia.
  rewrite seq_app, for_each_app_nobreak.
  destruct (@hals_rows_before k (seq 0 k) (V, zero)) as [[V' e'] [Hpre _]];
    auto.
  { intros j Hin. apply in_seq in Hin. lia. }
  rewrite Hpre. simpl.
  unfold truthy. rewrite Hz, Hnz. reflexivity.
Qed.

Lemma hals_nnls_degenerate (V : option (matrix F)) (n_iter_max : Z)
    (tol : F) (V0 : matrix F) (k : nat) :
  hals_start solve dot_sm UtM UtU V = Ok V0 ->
  0 < effective_n_iter_max exact n_iter_max ->
  nonzero_rows = true ->
  (k < nrows UtM)%nat ->
  eqb (entry UtU k k) zero = true ->
  (forall j, (j < k)%nat -> eqb (entry UtU j j) zero = false) ->
  row V0 k <> [] ->
  (normalize = true ->
   eqb (sqrt (of_Z (Z.of_nat (ncols UtM)))) zero = false) ->
  nnls V n_iter_max tol = Raise (degenerate_column k).
Proof.
  intros Hstart Hn Hnz Hlt Hz Hdiag Hk Hsqrt.
  unfold hals_nnls. rewrite Hstart. simpl bind. unfold range.
  destruct (Z.to_nat (effective_n_iter_max exact n_iter_max)) as [|m] eqn:Hm;
    [lia|].
  simpl. unfold hals_iteration at 1, hals_pass. simpl fst.
  rewrite (@hals_sweep_degenerate k V0); auto.
Qed.

(** Line 227 with [nonzero_rows] unset: the row is left as it is, save for
    the normalisation of lines 230-236 when it is asked for. *)
Lemma hals_row_skipped (k : nat) (V : matrix F) (e : F) :
  nonzero_rows = false ->
  eqb (entry UtU k k) zero = true ->
  hrow k (V, e)
  = if normalize then V' <- normalize_row UtM V k ;; Ok (V', e)
    else Ok (V, e).
Proof.
  intros Hnz Hz. unfold hals_row, truthy. rewrite Hz, Hnz. reflexivity.
Qed.
End Degenerate.

Lemma bounded_search (P : nat -> bool) (n : nat) :
  (exists k, (k < n)%nat /\ P k = true)
  \/ (forall k, (k < n)%nat -> P k = false).
Proof.
  induction n as [|n [[k [Hk HP]] | Hall]].
  - right. intros k Hk. lia.
  - left. exists k. split; [lia | assumption].
  - destruct (P n) eqn:Hn.
    + left. exists n. split; [lia | assumption].
    + right. intros k Hk.
      destruct (Nat.eq_dec k n) as [-> | Hne]; [assumption|].
      apply Hall. lia.
Qed.

Lemma first_true (P : nat -> bool) (n : nat) :
  (exists k, (k < n)%nat /\ P k = true) ->
  exists k, (k < n)%nat /\ P k = true
            /\ forall j, (j < k)%nat -> P j = false.
Proof.
  induction n as [|n IH]; intros [k [Hk HP]]; [lia|].
  destruct (bounded_search P n) as [Hex | Hall].
  - destruct (IH Hex) as [k' [Hk' [HP' Hleast]]].
    exists k'. repeat split; auto.
  - destruct (Nat.eq_dec k n) as [-> | Hne].
    + exists n. repeat split; auto.
    + rewrite Hall in HP by lia. discriminate.
Qed.

(** C6, as the code has it: a call of [hals_nnls] that has its start (a
    [V] that is passed, or lines 192-198 run to their end) and at least one
    iteration to run raises the error of line 228, naming the row [k], if and only if
    [nonzero_rows] is set and [UtU[k,k] == 0] for some row; the row named is
    the first such one.  With [nonzero_rows] unset such a row is passed over
    with neither update nor error (lines 208-228), the normalisation of
    lines 230-236 applying to it as to any row when it is asked for.
    The start [V0] is taken with an entry in each row, and [sqrt] of the
    column count not zero when [normalize] is set, so that nothing else is
    raised on the way. *)
Theorem hals_degenerate_column :
  forall (F : Type) (SF : Scalar F)
         (solve : matrix F -> matrix F -> result (matrix F))
         (dot_sm : F -> matrix F -> result (matrix F))
         (UtM UtU : matrix F) (sparsity_coefficient : option F)
         (normalize nonzero_rows exact : bool)
         (V : option (matrix F)) (n_iter_max : Z) (tol : F) (V0 : matrix F),
    hals_start solve dot_sm UtM UtU V = Ok V0 ->
    0 < (if exact then 5000 else n_iter_max) ->
    (forall k, (k < nrows UtM)%nat -> row V0 k <> []) ->
    (normalize = true ->
     eqb (sqrt (of_Z (Z.of_nat (ncols UtM)))) zero = false) ->
    ((exists k,
         hals_nnls solve dot_sm UtM UtU sparsity_coefficient normalize nonzero_rows
                   exact V n_iter_max tol = Raise (degenerate_column k))
     <-> (nonzero_rows = true
          /\ exists k, (k < nrows UtM)%nat
                       /\ eqb (entry UtU k k) zero = true))
    /\ (forall k,
           nonzero_rows = true ->
           (k < nrows UtM)%nat ->
           eqb (entry UtU k k) zero = true ->
           (forall j, (j < k)%nat -> eqb (entry UtU j j) zero = false) ->
           hals_nnls solve dot_sm UtM UtU sparsity_coefficient normalize nonzero_rows
                     exact V n_iter_max tol = Raise (degenerate_column k))
    /\ (forall k (V1 : matrix F) (e : F),
           nonzero_rows = false ->
           eqb (entry UtU k k) zero = true ->
           hals_row UtM UtU sparsity_coefficient normalize nonzero_rows k
                    (V1, e)
           = if normalize then V' <- normalize_row UtM V1 k ;; Ok (V', e)
             else Ok (V1, e)).
Proof.
  intros F SF solve dot_sm UtM UtU sc nz nr exact V n tol V0 Hstart Hn Hrows Hsqrt.
  assert (Hfirst : forall k,
             nr = true -> (k < nrows UtM)%nat ->
             eqb (entry UtU k k) zero = true ->
             (forall j, (j < k)%nat -> eqb (entry UtU j j) zero = false) ->
             hals_nnls solve dot_sm UtM UtU sc nz nr exact V n tol
             = Raise (degenerate_column k)).
  { intros k Hnr Hk Hz Hleast.
    eapply hals_nnls_degenerate; eauto. }
  split; [split|split].
  - intros [k Hraise]. eapply hals_nnls_Raise; eauto.
  - intros [Hnr Hex].
    destruct (@first_true (fun k => eqb (entry UtU k k) zero) (nrows UtM) Hex)
      as [k [Hk [Hz Hleast]]].
    exists k. apply Hfirst; auto.
  - exact Hfirst.
  - intros k V1 e Hnr Hz. apply hals_row_skipped; assumption.
Qed.

Lemma hals_degenerate_column_witness :
  hals_start gauss_solve dot_sm_method [[1; 1]; [1; 1]]%float [[1; 0]; [0; 0]]%float
             (Some [[1; 1]; [1; 1]]%float) = Ok [[1; 1]; [1; 1]]%float
  /\ 0 < 500
  /\ PrimFloat.eqb (entry [[1; 0]; [0; 0]]%float 1 1) 0%float = true
  /\ hals_nnls gauss_solve dot_sm_method [[1; 1]; [1; 1]]%float [[1; 0]; [0; 0]]%float
               None false true false (Some [[1; 1]; [1; 1]]%float) 500
               default_tol
     = Raise (ValueError "Column 1 of U is zero with nonzero condition").
Proof.
  assert (Hrows : forall k, (k < nrows [[1; 1]; [1; 1]]%float)%nat ->
                            row [[1; 1]; [1; 1]]%float k <> []).
  { intros [|[|k]] Hk; simpl in *; [discriminate | discriminate | lia]. }
  assert (Hsqrt : false = true ->
            PrimFloat.eqb
              (PrimFloat.sqrt
                 (float_of_Z (Z.of_nat (ncols [[1; 1]; [1; 1]]%float))))
              0%float = false) by discriminate.
  split; [reflexivity|]. split; [reflexivity|]. split; [reflexivity|].
  refine (proj1 (proj2 (@hals_degenerate_column
                          float float_scalar gauss_solve dot_sm_method
                          [[1; 1]; [1; 1]]%float [[1; 0]; [0; 0]]%float
                          None false true false
                          (Some [[1; 1]; [1; 1]]%float) 500 default_tol
                          [[1; 1]; [1; 1]]%float
                          eq_refl eq_refl Hrows Hsqrt))
                1%nat eq_refl _ eq_refl _).
  - simpl. lia.
  - intros [|j] Hj; [reflexivity | lia].
Defined.

(** Against C6 as stated.  On [UtU = [[1,0],[0,0]]] with [nonzero_rows] set
    and no start, row 1 has a zero diagonal entry, yet the call does not
    raise the error of line 228: the matrix is singular, and [tl.solve]
    raises at line 192, before the loop is reached. *)
Lemma hals_degenerate_column_unreached :
  PrimFloat.eqb (entry [[1; 0]; [0; 0]]%float 1 1) 0%float = true
  /\ hals_nnls gauss_solve dot_sm_method
               [[1; 1]; [0; 0]]%float [[1; 0]; [0; 0]]%float
               None false true false None default_n_iter_max default_tol
     = Raise (LinAlgError "Singular matrix")
  /\ ~ (exists k,
          hals_nnls gauss_solve dot_sm_method
                    [[1; 1]; [0; 0]]%float [[1; 0]; [0; 0]]%float
                    None false true false None default_n_iter_max
                    default_tol
          = Raise (degenerate_column k)).
Proof.
  assert (Hrun :
    hals_nnls gauss_solve dot_sm_method
              [[1; 1]; [0; 0]]%float [[1; 0]; [0; 0]]%float
              None false true false None default_n_iter_max default_tol
    = Raise (LinAlgError "Singular matrix")).
  { vm_compute. reflexivity. }
  split; [reflexivity|]. split; [exact Hrun|].
  intros [k Hk]. rewrite Hrun in Hk. discriminate Hk.
Qed.

(** ** The unbound names (line 1, lines 273, 363 and 375) *)

(** C7: in the module as it is written, every call of [active_set_nnls]
    raises [NameError] on [multi_mode_dot] during its setup; every call of
    [fista_nnls] raises before it returns, on [multi_mode_dot] when [x] is
    given and at the latest there when it is not ([tl.zeros()] is called
    first); and were [multi_mode_dot] bound, the first iteration of
    [fista_nnls] would raise on [np].  Neither solver returns a result. *)
Theorem solvers_never_return :
  forall (F : Type) (SF : Scalar F)
         (multi_mode_dot : tensor F -> list (matrix F) -> bool -> tensor F)
         (kronecker : list (matrix F) -> matrix F)
         (solve : matrix F -> matrix F -> result (matrix F))
         (zeros_noshape : result (tensor F))
         (A : tensor F) (B : list (matrix F)) (x : option (tensor F))
         (x0 : tensor F) (n_iter_max : Z)
         (gradient_step sparsity_coefficient : option F),
    ActiveSet.active_set_nnls multi_mode_dot kronecker solve
                              proximal_globals A B x n_iter_max
    = Raise (NameError "multi_mode_dot")
    /\ Fista.fista_nnls multi_mode_dot zeros_noshape proximal_globals
                        A B (Some x0) n_iter_max gradient_step
                        sparsity_coefficient
       = Raise (NameError "multi_mode_dot")
    /\ (exists e,
           Fista.fista_nnls multi_mode_dot zeros_noshape proximal_globals
                            A B x n_iter_max gradient_step
                            sparsity_coefficient
           = Raise e)
    /\ (forall (BtA : tensor F) (pseudo_inverse : list (matrix F))
               (step : F) (iteration : Z) (st : Fista.state F),
           Fista.fista_iteration multi_mode_dot
             ("multi_mode_dot" :: proximal_globals)%string
             BtA pseudo_inverse step iteration st
           = Raise (NameError "np")).
Proof.
  intros F SF mmd kron solve zeros A B x x0 n gs sc.
  split; [reflexivity|]. split; [reflexivity|]. split.
  - unfold Fista.fista_nnls.
    destruct x as [x1|]; [eexists; reflexivity|].
    destruct zeros as [z|e]; eexists; reflexivity.
  - reflexivity.
Qed.

(** ** The iterations of [fista_nnls] (lines 371-383) *)


Section FistaIterations.
Context {F : Type} `{Scalar F}.
Variable multi_mode_dot : tensor F -> list (matrix F) -> bool -> tensor F.
Variable G : namespace.
Variable BtA : tensor F.
Variable pseudo_inverse : list (matrix F).
Variable gradient_step : F.
Hypothesis np_bound : lookup G "np" = Ok tt.

Local Abbreviation iter :=
  (Fista.fista_iteration multi_mode_dot G BtA pseudo_inverse gradient_step).

(** With [np] bound an iteration runs to its end, and this is what it
    leaves in the loop-carried variables. *)
Lemma fista_iteration_Ok (iteration : Z) (st : Fista.state F) :
  exists fl,
    iter iteration st = Ok fl
    /\ Fista.x (flow_state fl)
       = tsub (Fista.x_upd st)
           (Fista.delta_x gradient_step
              (tadd (topp BtA)
                    (multi_mode_dot (Fista.x_upd st) pseudo_inverse false))
              st)
    /\ Fista.momentum_0 (flow_state fl)
       = Fista.next_momentum (Fista.momentum_0 st)
    /\ Fista.x_upd (flow_state fl)
       = tadd (Fista.x (flow_state fl))
              (tscale (div (sub (Fista.momentum_0 st) one)
                           (Fista.momentum_0 (flow_state fl)))
                      (tsub (Fista.x (flow_state fl)) (Fista.x st))).
Proof.
  unfold Fista.fista_iteration. rewrite np_bound. cbn [bind].
  match goal with |- context [if ?c then _ else _] => destruct c end;
    eexists; (split; [reflexivity|]); cbn [flow_state Fista.x Fista.x_upd
                                            Fista.momentum_0];
    repeat split; reflexivity.
Qed.

End FistaIterations.



(** The candidate step is the elementwise minimum as long as the previous
    iterate and the extrapolated point coincide, which they do in the first
    two iterations. *)
Lemma fista_delta_x_aligned {F : Type} `{Scalar F} (gradient_step : F)
    (gradient : tensor F) (st : Fista.state F) :
  Fista.x st = Fista.x_upd st ->
  Fista.delta_x gradient_step gradient st
  = tmin (tscale gradient_step gradient) (Fista.x_upd st).
Proof.
  intros Hx. unfold Fista.delta_x, tmin. rewrite Hx. reflexivity.
Qed.

(** C3 at [A = [-1]], [B = [[1]]], [x = [7]], [gradient_step = 0.5], with
    the two unbound names bound: the first two iterations leave the previous
    iterate at 1 and the extrapolated point at about 0.436.  In the third,
    [gradient_step * gradient] is about 0.718; line 373 compares it with the
    previous iterate, takes it as the step, and the call returns about
    -0.28, where the elementwise minimum with the extrapolated point is the
    extrapolated point itself. *)
Theorem fista_step_not_minimum :
  for_each (Fista.fista_iteration mode_dot_1d bound_globals
              (vector [(-1)%float]) [[[1%float]]] 0.5%float)
           (range 2) (Fista.initial (vector [7%float]))
  = Ok {| Fista.x := vector [1%float];
          Fista.x_upd := vector [0x1.bef802006ea8ap-2%float];
          Fista.momentum_0 := 0x1.18c57edb318bcp+1%float;
          Fista.norm_0 := 2%float |}
  /\ Fista.delta_x 0.5%float
       (tadd (topp (vector [(-1)%float]))
             (mode_dot_1d (vector [0x1.bef802006ea8ap-2%float])
                          [[[1%float]]] false))
       {| Fista.x := vector [1%float];
          Fista.x_upd := vector [0x1.bef802006ea8ap-2%float];
          Fista.momentum_0 := 0x1.18c57edb318bcp+1%float;
          Fista.norm_0 := 2%float |}
     = vector [0x1.6fbe00801baa2p-1%float]
  /\ tmin (tscale 0.5%float
             (tadd (topp (vector [(-1)%float]))
                   (mode_dot_1d (vector [0x1.bef802006ea8ap-2%float])
                                [[[1%float]]] false)))
          (vector [0x1.bef802006ea8ap-2%float])
     = vector [0x1.bef802006ea8ap-2%float]
  /\ Fista.fista_nnls mode_dot_1d (Raise (TypeError "zeros")) bound_globals
                      (vector [(-1)%float]) [[[1%float]]]
                      (Some (vector [7%float])) 3 (Some 0.5%float) None
     = Ok (vector [(-0x1.2083feffc8abap-2)%float])
  /\ PrimFloat.ltb (-0x1.2083feffc8abap-2)%float 0%float = true.
Proof.
  repeat split; vm_compute; reflexivity.
Qed.

(** ** Nonnegativity of what the solvers return *)

(** C4 at two inputs.  On [UtM = [[2^1000]]], [UtU = [[2^-1000]]] and the
    start [V = [[1]]], none of them with a negative entry, the first sweep
    overflows: the step of line 217 is [2^1000/2^-1000 = inf] and [V]
    becomes [inf]; in the second sweep the step is [-inf], line 218 clamps
    it to [-V], and [V = inf - inf] is NaN, which every later sweep keeps.
    [hals_nnls] returns [V = [[nan]]], which is not above [-1e-12].
    On [A = [1]], [B = [[1]]], [x = [0]], [active_set_nnls] raises
    [NameError] and returns no [x]. *)
Theorem nnls_nonnegativity_fails :
  hals_pass [[0x1p1000]]%float [[0x1p-1000]]%float None false false 0
            [[1]]%float
  = Ok ([[infinity]],
        {| rec_error := infinity; rec_error0 := 0%float; iteration := 0;
           complexity_ratio := 2%float |})
  /\ hals_pass [[0x1p1000]]%float [[0x1p-1000]]%float None false false 1
               [[infinity]]
     = Ok ([[nan]],
           {| rec_error := infinity; rec_error0 := infinity; iteration := 1;
              complexity_ratio := 2%float |})
  /\ hals_nnls gauss_solve dot_sm_method
               [[0x1p1000]]%float [[0x1p-1000]]%float
               None false false false (Some [[1]]%float)
               default_n_iter_max default_tol
     = Ok ([[nan]], nan, 3, 2%float)
  /\ leb (opp (lit (1 # 1000000000000))) nan = false
  /\ ActiveSet.active_set_nnls mode_dot_1d (@kronecker_1 float) gauss_solve
       proximal_globals (vector [1%float]) [[[1%float]]]
       (Some (vector [0%float])) ActiveSet.default_n_iter_max
     = Raise (NameError "multi_mode_dot").
Proof.
  repeat split; vm_compute; reflexivity.
Qed.

(** ** The head of an iteration of [active_set_nnls] (lines 284-292) *)

(** C1, as the code has it: at the start of an iteration [active_set_nnls]
    leaves its loop, and so returns, exactly when [min(w) < 0]; otherwise
    it goes on: unless [P] is not empty and ends with [argmax(w)], that
    index is appended to [P] and removed from [R]. *)
Theorem active_set_iteration_start :
  forall (F : Type) (SF : Scalar F) (w : vec F) (P R : list nat),
    (ActiveSet.iteration_head w P R = Ok ActiveSet.Stop
     <-> exists m, tl_min w = Ok m /\ ltb m zero = true)
    /\ (forall (m : F) (indice : nat),
           tl_min w = Ok m -> ltb m zero = false -> argmax w = Ok indice ->
           ActiveSet.iteration_head w P R
           = if (length P =? 0)%nat || negb (last P O =? indice)%nat
             then R' <- ActiveSet.list_remove indice R ;;
                  Ok (ActiveSet.Pivot (P ++ [indice]) R')
             else Ok (ActiveSet.Pivot P R))
    /\ (forall (multi_mode_dot :
                  tensor F -> list (matrix F) -> bool -> tensor F)
               (solve : matrix F -> matrix F -> result (matrix F))
               (sh : list nat) (AtA : matrix F) (AtB : vec F)
               (pseudo_inverse : list (matrix F)) (iteration : Z)
               (st : ActiveSet.state F),
           ActiveSet.iteration_head (ActiveSet.w st) (ActiveSet.P st)
                                    (ActiveSet.R st) = Ok ActiveSet.Stop ->
           ActiveSet.active_set_iteration multi_mode_dot solve sh AtA AtB
                                          pseudo_inverse iteration st
           = Ok (Break st)).
Proof.
  intros F SF w P R. split; [split|split].
  - unfold ActiveSet.iteration_head.
    destruct (tl_min w) as [m|e]; simpl; [|discriminate].
    destruct (ltb m zero) eqn:Hm; [eauto|].
    destruct (argmax w) as [i|e]; simpl; [|discriminate].
    destruct (length P =? 0)%nat.
    + destruct (ActiveSet.list_remove i R); simpl; discriminate.
    + destruct (negb (last P O =? i)%nat); [|discriminate].
      destruct (ActiveSet.list_remove i R); simpl; discriminate.
  - intros [m [Hm Hlt]]. unfold ActiveSet.iteration_head.
    rewrite Hm. simpl. rewrite Hlt. reflexivity.
  - intros m i Hm Hlt Hi. unfold ActiveSet.iteration_head.
    rewrite Hm. simpl. rewrite Hlt, Hi. simpl.
    destruct (length P =? 0)%nat; simpl; [reflexivity|].
    destruct (negb (last P O =? i)%nat); reflexivity.
  - intros mmd solve sh AtA AtB pinv it st Hstop.
    unfold ActiveSet.active_set_iteration. rewrite Hstop. reflexivity.
Qed.

Lemma active_set_iteration_start_witness :
  tl_min [1; 2]%float = Ok 1%float
  /\ PrimFloat.ltb 1%float 0%float = false
  /\ argmax [1; 2]%float = Ok 1%nat
  /\ ActiveSet.iteration_head [1; 2]%float [] [0; 1]%nat
     = (if (length (@nil nat) =? 0)%nat || negb (last [] O =? 1)%nat
        then R' <- ActiveSet.list_remove 1 [0; 1]%nat ;;
             Ok (ActiveSet.Pivot ([] ++ [1%nat]) R')
        else Ok (ActiveSet.Pivot [] [0; 1]%nat)).
Proof.
  split; [reflexivity|]. split; [reflexivity|]. split; [reflexivity|].
  exact (proj1 (proj2 (@active_set_iteration_start float float_scalar
                         [1; 2]%float [] [0; 1]%nat))
               1%float 1%nat eq_refl eq_refl eq_refl).
Defined.

(** Against C1 as stated.  With [w = [1, 2]] the minimum is not below 0, and
    the iteration does not stop: it moves index 1 from [R] to [P].  With
    [w = [-1, 2]] the minimum is below 0, and the iteration stops.  On the
    whole function, the two unbound names bound: with [A = [-1]],
    [B = [[1]]], [x = [0]] the gradient is [[-1]] and the call returns [x]
    from its first iteration; with [A = [1]] the gradient is [[1]] and the
    call goes past line 285, to fail at line 317. *)
Lemma active_set_stop_test_inverted :
  tl_min [1; 2]%float = Ok 1%float
  /\ leb 0%float 1%float = true
  /\ ActiveSet.iteration_head [1; 2]%float [] [0; 1]%nat
     = Ok (ActiveSet.Pivot [1%nat] [0%nat])
  /\ tl_min [-1; 2]%float = Ok (-1)%float
  /\ leb 0%float (-1)%float = false
  /\ ActiveSet.iteration_head [-1; 2]%float [] [0; 1]%nat
     = Ok ActiveSet.Stop
  /\ ActiveSet.active_set_nnls mode_dot_1d (@kronecker_1 float) gauss_solve
       bound_globals (vector [(-1)%float]) [[[1%float]]]
       (Some (vector [0%float])) ActiveSet.default_n_iter_max
     = Ok (vector [0%float])
  /\ ActiveSet.active_set_nnls mode_dot_1d (@kronecker_1 float) gauss_solve
       bound_globals (vector [1%float]) [[[1%float]]]
       (Some (vector [0%float])) ActiveSet.default_n_iter_max
     = Raise (UnboundLocalError "update").
Proof.
  repeat split; vm_compute; reflexivity.
Qed.

Local Open Scope Q_scope.

(** ** Nonnegativity of [hals_nnls] in exact arithmetic *)

Lemma Qltb_true (a b : Q) : Qltb a b = true -> a < b.
Proof.
  unfold Qltb. intros Hlt. apply negb_true_iff in Hlt.
  apply Qnot_le_lt. intros Hle. apply Qle_bool_iff in Hle. congruence.
Qed.

Lemma Qdiv_red_nonneg (a b : Q) : 0 <= a -> 0 < b -> 0 <= Qdiv_red a b.
Proof.
  intros Ha Hb. unfold Qdiv_red. rewrite Qred_correct.
  apply Qle_shift_div_l; [assumption | lra].
Qed.

Lemma Qmul_red_nonneg (a b : Q) : 0 <= a -> 0 <= b -> 0 <= Qmul_red a b.
Proof.
  intros Ha Hb. unfold Qmul_red. rewrite Qred_correct.
  apply Qmult_le_0_compat; assumption.
Qed.

(** A row after lines 217-219 has no negative entry, whatever it held. *)
Lemma hals_clamped_step_nonneg (v d : Q) :
  0 <= Qadd_red v (if Qltb (Qopp_red v) d then d else Qopp_red v).
Proof.
  unfold Qadd_red, Qopp_red.
  destruct (Qltb (Qred (- v)) d) eqn:Hlt.
  - apply Qltb_true in Hlt. rewrite Qred_correct in Hlt.
    rewrite Qred_correct. lra.
  - rewrite !Qred_correct. lra.
Qed.

Section ExactNonneg.
Variable sqrtQ : Q -> Q.
Variable epsQ : Q.
Hypothesis sqrt_nonneg : forall x, 0 <= sqrtQ x.
Hypothesis eps_nonneg : 0 <= epsQ.
#[local] Instance QS : Scalar Q := Q_scalar sqrtQ epsQ.

Lemma hals_update_nonneg (g Vk : vec Q) :
  nonneg_vec
    (vadd Vk (where_ (map2 (fun d v => ltb (opp v) d) g Vk) g (vopp Vk))).
Proof.
  unfold nonneg_vec, vadd, where_, vopp, map2. revert g.
  induction Vk as [|v Vk IH]; intros [|d g];
    cbn [combine map fst snd add ltb opp QS Q_scalar]; try constructor.
  - apply hals_clamped_step_nonneg.
  - apply IH.
Qed.

Lemma row_nonneg (V : matrix Q) (k : nat) :
  nonneg_matrix V -> nonneg_vec (row V k).
Proof.
  unfold nonneg_matrix, row. intros HV.
  destruct (nth_in_or_default k V []) as [Hin | ->]; [|constructor].
  rewrite Forall_forall in HV. apply HV. assumption.
Qed.

Lemma set_row_nonneg (V : matrix Q) (k : nat) (r : vec Q) :
  nonneg_matrix V -> nonneg_vec r -> nonneg_matrix (set_row V k r).
Proof.
  unfold nonneg_matrix. intros HV Hr. revert k.
  induction HV as [|r0 V Hr0 HV IH]; intros [|k]; simpl;
    constructor; auto.
Qed.

Lemma max2_either (a b : Q) : max2 a b = a \/ max2 a b = b.
Proof.
  unfold max2. destruct (isnan a); [auto|].
  destruct (isnan b); [auto|]. destruct (ltb a b); auto.
Qed.

Lemma tl_max_nonneg (a : vec Q) (m : Q) :
  nonneg_vec a -> tl_max a = Ok m -> 0 <= m.
Proof.
  unfold nonneg_vec. destruct a as [|x a]; simpl; [discriminate|].
  intros Ha Hm. injection Hm as <-. inversion Ha as [|x' a' Hx Ha']; subst.
  clear Ha. revert x Hx.
  induction Ha' as [|y a Hy Ha' IH]; intros x Hx; simpl; [assumption|].
  apply IH. destruct (max2_either x y) as [-> | ->]; assumption.
Qed.

Lemma normalize_row_nonneg (UtM V V' : matrix Q) (k : nat) :
  nonneg_matrix V -> normalize_row UtM V k = Ok V' -> nonneg_matrix V'.
Proof.
  intros HV. unfold normalize_row.
  destruct (negb (eqb (norm (row V k)) zero)) eqn:Hn.
  - intros Hok. injection Hok as <-. apply set_row_nonneg; [assumption|].
    assert (Hpos : 0 < norm (row V k)).
    { apply negb_true_iff in Hn. apply Qeq_bool_neq in Hn.
      pose proof (sqrt_nonneg
                    (vsum (map (fun x => mul x x) (row V k)))) as Hge.
      unfold norm in *. cbn [sqrt zero QS Q_scalar] in *. lra. }
    pose proof (@row_nonneg V k HV) as Hrow. unfold nonneg_vec, vdivs in *.
    apply Forall_map. eapply Forall_impl; [|exact Hrow].
    intros x Hx. apply Qdiv_red_nonneg; assumption.
  - destruct (eqb (sqrt (of_Z (Z.of_nat (n_col_M UtM)))) zero) eqn:Hr;
      [discriminate|].
    intros Hok. injection Hok as <-. apply set_row_nonneg; [assumption|].
    apply Forall_forall. intros x Hx. apply repeat_spec in Hx. subst x.
    apply Qeq_bool_neq in Hr.
    pose proof (sqrt_nonneg (inject_Z (Z.of_nat (n_col_M UtM)))) as Hge.
    apply Qdiv_red_nonneg; [lra|].
    cbn [sqrt of_Z zero QS Q_scalar] in *. lra.
Qed.

Section Sweeps.
Variables UtM UtU : matrix Q.
Variable sparsity_coefficient : option Q.
Variables normalize nonzero_rows : bool.

Lemma hals_row_nonneg (k : nat) (V V' : matrix Q) (e e' : Q) :
  nonneg_matrix V ->
  hals_row UtM UtU sparsity_coefficient normalize nonzero_rows k (V, e)
  = Ok (V', e') ->
  nonneg_matrix V'.
Proof.
  intros HV. unfold hals_row.
  assert (Hfinish : forall V2 e2,
             nonneg_matrix V2 ->
             (if normalize
              then V3 <- normalize_row UtM V2 k ;; Ok (V3, e2)
              else Ok (V2, e2)) = Ok (V', e') ->
             nonneg_matrix V').
  { intros V2 e2 HV2. destruct normalize.
    - intros Hn. apply bind_Ok in Hn as [V3 [Hn Hok]].
      injection Hok as <- _. eapply normalize_row_nonneg; eauto.
    - intros Hok. injection Hok as <- _. assumption. }
  destruct (truthy (entry UtU k k)).
  - set (V1 := set_row V k
                 (vadd (row V k)
                       (hals_deltaV UtM UtU sparsity_coefficient V k))).
    assert (HV1 : nonneg_matrix V1).
    { apply set_row_nonneg; [assumption|]. apply hals_update_nonneg. }
    destruct (nonzero_rows && all_zero (row V1 k)).
    + destruct (tl_max (concat V1)) as [m|err] eqn:Hm; cbn [bind];
        [|discriminate].
      apply Hfinish. apply set_row_nonneg; [assumption|].
      apply Forall_map. apply Forall_forall. intros x _.
      apply Qmul_red_nonneg; [assumption|].
      eapply tl_max_nonneg; [|exact Hm].
      apply Forall_concat. exact HV1.
    + cbn [bind]. apply Hfinish. assumption.
  - destruct nonzero_rows; cbn [bind]; [discriminate|].
    apply Hfinish. assumption.
Qed.

Lemma hals_sweep_nonneg (V V' : matrix Q) (e : Q) :
  nonneg_matrix V ->
  hals_sweep UtM UtU sparsity_coefficient normalize nonzero_rows V
  = Ok (V', e) ->
  nonneg_matrix V'.
Proof.
  intros HV Hsweep. unfold hals_sweep in Hsweep.
  destruct (for_each_invariant
              (fun k st =>
                 st' <- hals_row UtM UtU sparsity_coefficient normalize
                                 nonzero_rows k st ;; Ok (Continue st'))
              (fun (_ : nat) (st : matrix Q * Q) => nonneg_matrix (fst st)))
    with (items := seq 0 (rank UtM)) (s := (V, zero)) (k := O)
         (s' := (V', e)) as [n [_ Hinv]]; auto.
  intros k [V1 e1] n [V2 e2] HV1 Hstep.
  assert (Hrow : hals_row UtM UtU sparsity_coefficient normalize
                          nonzero_rows k (V1, e1) = Ok (V2, e2)).
  { destruct Hstep as [Hs | Hs]; apply bind_Ok in Hs as [st' [Hr Hok]];
      [injection Hok as <- | discriminate]; exact Hr. }
  eapply hals_row_nonneg; eauto.
Qed.

Lemma hals_run_nonneg (stop : hals_locals Q -> bool) (a j : Z)
    (V0 V : matrix Q) (l : hals_locals Q) :
  nonneg_matrix V0 ->
  hals_run UtM UtU sparsity_coefficient normalize nonzero_rows stop a V0 j V l
  -> nonneg_matrix V.
Proof.
  intros HV0 Hrun.
  induction Hrun as [V l Hp | j V l V' l' Hrun IH Hstop Hp].
  - apply hals_pass_facts in Hp as [Hsweep _].
    eapply hals_sweep_nonneg; eauto.
  - apply hals_pass_facts in Hp as [Hsweep _].
    eapply hals_sweep_nonneg; eauto.
Qed.
End Sweeps.

(** In exact arithmetic a call of [hals_nnls] that starts from a matrix
    without negative entry returns one without negative entry. *)
Lemma hals_exact_nonnegative
    (solve : matrix Q -> matrix Q -> result (matrix Q))
    (dot_sm : Q -> matrix Q -> result (matrix Q))
    (UtM UtU : matrix Q) (sparsity_coefficient : option Q)
    (normalize nonzero_rows exact : bool) (V : option (matrix Q))
    (n_iter_max : Z) (tol : Q) (V0 Vr : matrix Q) (e : Q) (it : Z) (cr : Q) :
  hals_start solve dot_sm UtM UtU V = Ok V0 ->
  nonneg_matrix V0 ->
  hals_nnls solve dot_sm UtM UtU sparsity_coefficient normalize nonzero_rows exact
            V n_iter_max tol = Ok (Vr, e, it, cr) ->
  nonneg_matrix Vr.
Proof.
  intros Hstart HV0 Hret.
  destruct (proj1 (hals_nnls_returns solve dot_sm UtM UtU sparsity_coefficient
                     normalize nonzero_rows exact V n_iter_max tol Vr e it cr
                     Hstart) Hret) as [l [Hrun _]].
  eapply hals_run_nonneg; eauto.
Qed.
End ExactNonneg.

Local Close Scope Q_scope.

(** ** The shrinkage of [soft_thresholding], in exact arithmetic *)

Local Open Scope Q_scope.

Lemma Qltb_false (a b : Q) : Qltb a b = false -> b <= a.
Proof.
  unfold Qltb. intros Hlt. apply negb_false_iff in Hlt.
  apply Qle_bool_iff. assumption.
Qed.

Section ExactThresholding.
Variable sqrtQ : Q -> Q.
Variable epsQ : Q.
#[local] Instance QS2 : Scalar Q := Q_scalar sqrtQ epsQ.

Lemma soft_threshold_regimes (x t : Q) :
  0 <= t ->
  (Qabs x <= t -> soft_threshold x t == 0)
  /\ (t < x -> soft_threshold x t == x - t)
  /\ (x < - t -> soft_threshold x t == x + t).
Proof.
  intros Ht.
  unfold soft_threshold, tl_sign, tl_abs, clip_min0, isnan.
  cbn [eqb ltb zero one mul sub opp QS2 Q_scalar].
  rewrite (Qeq_bool_refl x). cbn [negb].
  rewrite Qabs_Qle_condition.
  unfold Qmul_red, Qsub_red, Qopp_red.
  destruct (Qltb 0 x) eqn:H0x; [apply Qltb_true in H0x | apply Qltb_false in H0x];
  (destruct (Qltb x 0) eqn:Hx0; [apply Qltb_true in Hx0 | apply Qltb_false in Hx0]);
  try lra.
  all: repeat match goal with
       | |- context [Qeq_bool ?y 0] =>
           let Hz := fresh "Hz" in
           destruct (Qeq_bool y 0) eqn:Hz;
           [apply Qeq_bool_eq in Hz | apply Qeq_bool_neq in Hz]
       | |- context [Qltb ?a ?b] =>
           let Hc := fresh "Hc" in
           destruct (Qltb a b) eqn:Hc;
           [apply Qltb_true in Hc | apply Qltb_false in Hc]
       end;
    repeat rewrite Qred_correct in *; repeat split; intros; lra.
Qed.

Lemma Forall2_map_same {A B : Type} (R : A -> B -> Prop) (f : A -> B)
    (l : list A) :
  (forall x, R x (f x)) -> Forall2 R l (map f l).
Proof.
  intros HR. induction l as [|x l IH]; simpl; constructor; auto.
Qed.

(** The three regimes of the shrinkage, for a threshold that is a number. *)
Lemma soft_thresholding_regimes (T : tensor Q) (t : Q) :
  0 <= t ->
  shape (soft_thresholding T (inl t)) = shape T
  /\ Forall2 (fun x y =>
                (Qabs x <= t -> y == 0)
                /\ (t < x -> y == x - t)
                /\ (x < - t -> y == x + t))
             (data T) (data (soft_thresholding T (inl t))).
Proof.
  intros Ht. split; [reflexivity|].
  cbn [soft_thresholding tmap data].
  apply Forall2_map_same. intros x. apply soft_threshold_regimes. exact Ht.
Qed.

Lemma soft_threshold_trichotomy (x t : Q) :
  0 <= t ->
  (Qabs x <= t /\ soft_threshold x t == 0)
  \/ (t < x /\ soft_threshold x t == x - t)
  \/ (x < - t /\ soft_threshold x t == x + t).
Proof.
  intros Ht. destruct (@soft_threshold_regimes x t Ht) as [H0 [Hp Hn]].
  destruct (Qlt_le_dec t x) as [Hgt | Hle]; [right; left; auto|].
  destruct (Qlt_le_dec x (- t)) as [Hlt | Hge]; [right; right; auto|].
  left. assert (Ha : Qabs x <= t) by (apply Qabs_Qle_condition; lra).
  auto.
Qed.

(** The shrinkage is nonexpansive: two inputs are never moved apart. *)
Lemma soft_threshold_nonexpansive (x y t : Q) :
  0 <= t ->
  Qabs (soft_threshold x t - soft_threshold y t) <= Qabs (x - y).
Proof.
  intros Ht.
  pose proof (Qle_Qabs (x - y)) as Hb1.
  pose proof (Qle_Qabs (- (x - y))) as Hb2. rewrite Qabs_opp in Hb2.
  pose proof (Qabs_nonneg (x - y)) as Hb0.
  destruct (@soft_threshold_trichotomy x t Ht) as [[Hx ->] | [[Hx ->] | [Hx ->]]];
  destruct (@soft_threshold_trichotomy y t Ht) as [[Hy ->] | [[Hy ->] | [Hy ->]]];
  try (apply Qabs_Qle_condition in Hx); try (apply Qabs_Qle_condition in Hy);
  apply Qabs_Qle_condition; lra.
Qed.
End ExactThresholding.

Local Close Scope Q_scope.

(** ** More on [soft_thresholding] *)

Local Open Scope Q_scope.

Lemma Qsqrt_floor_nonneg (x : Q) : 0 <= Qsqrt_floor x.
Proof.
  unfold Qsqrt_floor. rewrite Qred_correct. unfold Qle. simpl.
  rewrite Z.mul_1_r. apply Z.sqrt_nonneg.
Qed.

Lemma combine_map_both {A B : Type} (f : A -> B) (a b : list A) :
  combine (map f a) (map f b)
  = map (fun p => (f (fst p), f (snd p))) (combine a b).
Proof.
  revert b. induction a as [|x a IH]; intros [|y b]; simpl; auto.
  rewrite IH. reflexivity.
Qed.

(** X: [soft_thresholding] with a nonnegative number as threshold never
    moves two arrays apart: entry by entry the results differ by no more
    than the inputs. *)
Theorem soft_thresholding_nonexpansive :
  forall (sqrtQ : Q -> Q) (epsQ : Q) (T T' : tensor Q) (t : Q),
    0 <= t ->
    Forall2 (fun p q => Qabs (fst q - snd q) <= Qabs (fst p - snd p))
            (combine (data T) (data T'))
            (combine
               (data (@soft_thresholding Q (Q_scalar sqrtQ epsQ) T (inl t)))
               (data (@soft_thresholding Q (Q_scalar sqrtQ epsQ) T' (inl t)))).
Proof.
  intros sqrtQ epsQ T T' t Ht.
  cbn [soft_thresholding tmap data]. rewrite combine_map_both.
  apply Forall2_map_same. intros [x y]. cbn [fst snd].
  apply soft_threshold_nonexpansive. exact Ht.
Qed.

(** X: with an array of thresholds, an entry whose threshold is 0 is left
    as it is, and an entry with a positive threshold is shrunk by it. *)
Theorem soft_thresholding_per_entry :
  forall (sqrtQ : Q -> Q) (epsQ : Q) (T thresholds : tensor Q),
    Forall2 (fun p y =>
               (snd p == 0 -> y == fst p)
               /\ (0 <= snd p ->
                   (Qabs (fst p) <= snd p -> y == 0)
                   /\ (snd p < fst p -> y == fst p - snd p)
                   /\ (fst p < - snd p -> y == fst p + snd p)))
            (combine (data T) (data thresholds))
            (data (@soft_thresholding Q (Q_scalar sqrtQ epsQ) T
                                      (inr thresholds))).
Proof.
  intros sqrtQ epsQ T ts.
  cbn [soft_thresholding tmap2 data]. unfold map2.
  apply Forall2_map_same. intros [x t]. cbn [fst snd].
  split.
  - intros Hz.
    assert (Ht : 0 <= t) by lra.
    destruct (@soft_threshold_trichotomy sqrtQ epsQ x t Ht)
      as [[Hx ->] | [[Hx ->] | [Hx ->]]].
    + apply Qabs_Qle_condition in Hx. lra.
    + lra.
    + lra.
  - intros Ht. apply soft_threshold_regimes. exact Ht.
Qed.

Lemma soft_thresholding_regimes_witness :
  0 <= 11 # 10
  /\ data (@soft_thresholding Q (Q_scalar Qsqrt_floor 0)
             {| shape := [2; 3]%nat;
                data := [1; -2; 3 # 2; -4; 3; - (1 # 2)] |}
             (inl (11 # 10)))
     = [0; - (9 # 10); 2 # 5; - (29 # 10); 19 # 10; 0]
  /\ (shape (@soft_thresholding Q (Q_scalar Qsqrt_floor 0)
               {| shape := [2; 3]%nat;
                  data := [1; -2; 3 # 2; -4; 3; - (1 # 2)] |}
               (inl (11 # 10)))
      = [2; 3]%nat
      /\ Forall2 (fun x y =>
                    (Qabs x <= 11 # 10 -> y == 0)
                    /\ (11 # 10 < x -> y == x - (11 # 10))
                    /\ (x < - (11 # 10) -> y == x + (11 # 10)))
                 [1; -2; 3 # 2; -4; 3; - (1 # 2)]
                 (data (@soft_thresholding Q (Q_scalar Qsqrt_floor 0)
                          {| shape := [2; 3]%nat;
                             data := [1; -2; 3 # 2; -4; 3; - (1 # 2)] |}
                          (inl (11 # 10))))).
Proof.
  assert (Ht : 0 <= 11 # 10) by (unfold Qle; simpl; lia).
  split; [exact Ht|]. split; [vm_compute; reflexivity|].
  exact (@soft_thresholding_regimes Qsqrt_floor 0
           {| shape := [2; 3]%nat;
              data := [1; -2; 3 # 2; -4; 3; - (1 # 2)] |}
           (11 # 10) Ht).
Defined.

Lemma soft_thresholding_nonexpansive_witness :
  0 <= 1
  /\ Forall2 (fun p q => Qabs (fst q - snd q) <= Qabs (fst p - snd p))
             (combine [3; -2] [1 # 2; 2])
             (combine
                (data (@soft_thresholding Q (Q_scalar Qsqrt_floor 0)
                         (vector [3; -2]) (inl 1)))
                (data (@soft_thresholding Q (Q_scalar Qsqrt_floor 0)
                         (vector [1 # 2; 2]) (inl 1)))).
Proof.
  assert (Ht : 0 <= 1) by (unfold Qle; simpl; lia).
  split; [exact Ht|].
  exact (@soft_thresholding_nonexpansive Qsqrt_floor 0
           (vector [3; -2]) (vector [1 # 2; 2]) 1 Ht).
Defined.

Local Close Scope Q_scope.

(** ** Edge cases of [hals_nnls] *)

(** A call of [hals_nnls] with [exact] unset and [n_iter_max <= 0] runs
    no iteration and fails at its [return]: [rec_error] was never bound. *)
Theorem hals_no_iteration_raises :
  forall (F : Type) (SF : Scalar F)
         (solve : matrix F -> matrix F -> result (matrix F))
         (dot_sm : F -> matrix F -> result (matrix F))
         (UtM UtU : matrix F) (sparsity_coefficient : option F)
         (normalize nonzero_rows : bool)
         (V : option (matrix F)) (n_iter_max : Z) (tol : F) (V0 : matrix F),
    hals_start solve dot_sm UtM UtU V = Ok V0 ->
    n_iter_max <= 0 ->
    hals_nnls solve dot_sm UtM UtU sparsity_coefficient normalize nonzero_rows false
              V n_iter_max tol
    = Raise (UnboundLocalError "rec_error").
Proof.
  intros F SF solve dot_sm UtM UtU sc nz nr V n tol V0 Hstart Hn.
  eapply hals_nnls_no_iteration; eauto.
Qed.

Lemma hals_no_iteration_raises_witness :
  hals_start gauss_solve dot_sm_method [[1]]%float [[1]]%float (Some [[1]]%float)
  = Ok [[1]]%float
  /\ 0 <= 0
  /\ hals_nnls gauss_solve dot_sm_method [[1]]%float [[1]]%float None false false false
               (Some [[1]]%float) 0 default_tol
     = Raise (UnboundLocalError "rec_error").
Proof.
  split; [reflexivity|]. split; [lia|].
  exact (@hals_no_iteration_raises float float_scalar gauss_solve dot_sm_method
           [[1]]%float [[1]]%float None false false (Some [[1]]%float) 0
           default_tol [[1]]%float eq_refl (Z.le_refl 0)).
Defined.

(** On empty input, [UtM] and the start without rows, the first
    iteration of [hals_nnls] divides by zero at line 242. *)
Theorem hals_empty_input_raises :
  forall (F : Type) (SF : Scalar F)
         (solve : matrix F -> matrix F -> result (matrix F))
         (dot_sm : F -> matrix F -> result (matrix F))
         (UtU : matrix F) (sparsity_coefficient : option F)
         (normalize nonzero_rows exact : bool)
         (V : option (matrix F)) (n_iter_max : Z) (tol : F),
    hals_start solve dot_sm [] UtU V = Ok [] ->
    0 < (if exact then 5000 else n_iter_max) ->
    hals_nnls solve dot_sm [] UtU sparsity_coefficient normalize nonzero_rows exact
              V n_iter_max tol
    = Raise ZeroDivisionError.
Proof.
  intros F SF solve dot_sm UtU sc nz nr exact V n tol Hstart Hn.
  unfold hals_nnls. rewrite Hstart. cbn [bind]. unfold range.
  change (effective_n_iter_max exact n) with (if exact then 5000 else n).
  destruct (Z.to_nat (if exact then 5000 else n)) as [|m] eqn:Hm; [lia|].
  reflexivity.
Qed.

Lemma hals_empty_input_raises_witness :
  hals_start gauss_solve dot_sm_method [] [] (Some (@nil (vec float)))
  = Ok []
  /\ 0 < 500
  /\ hals_nnls gauss_solve dot_sm_method [] [] None false false false
               (Some (@nil (vec float))) 500 default_tol
     = Raise ZeroDivisionError.
Proof.
  split; [reflexivity|]. split; [lia|].
  exact (@hals_empty_input_raises float float_scalar gauss_solve dot_sm_method
           [] None false false false (Some []) 500 default_tol eq_refl
           eq_refl).
Defined.

(** ** The error test of [hals_nnls], in exact arithmetic *)

Local Open Scope Q_scope.

Lemma for_each_ext {I S : Type} (f g : I -> S -> result (flow S)) :
  (forall i s, f i s = g i s) ->
  forall items s, for_each f items s = for_each g items s.
Proof.
  intros Hfg. induction items as [|i items IH]; intros s; simpl.
  - reflexivity.
  - rewrite Hfg. destruct (g i s) as [[s1|s1]|e]; simpl; auto.
Qed.

Section ExactStops.
Variable sqrtQ : Q -> Q.
Variable epsQ : Q.
#[local] Instance QS3 : Scalar Q := Q_scalar sqrtQ epsQ.

Lemma fold_add_nonneg (a : vec Q) (acc : Q) :
  nonneg_vec a -> 0 <= acc -> 0 <= fold_left add a acc.
Proof.
  unfold nonneg_vec. intros Ha. revert acc.
  induction Ha as [|x a Hx Ha IH]; intros acc Hacc; simpl; [assumption|].
  apply IH. unfold Qadd_red. rewrite Qred_correct. lra.
Qed.

Lemma vdot_self_nonneg (d : vec Q) : 0 <= vdot d d.
Proof.
  unfold vdot, vsum. apply fold_add_nonneg; [|cbn; lra].
  unfold nonneg_vec, map2. induction d as [|x d IH]; simpl; constructor.
  - unfold Qmul_red. rewrite Qred_correct. nra.
  - exact IH.
Qed.

Section Sweeps.
Variables UtM UtU : matrix Q.
Variable sparsity_coefficient : option Q.
Variables normalize nonzero_rows : bool.

Lemma hals_row_error_nonneg (k : nat) (V V' : matrix Q) (e e' : Q) :
  0 <= e ->
  hals_row UtM UtU sparsity_coefficient normalize nonzero_rows k (V, e)
  = Ok (V', e') ->
  0 <= e'.
Proof.
  intros He. unfold hals_row.
  assert (Hfinish : forall V2 e2,
             0 <= e2 ->
             (if normalize
              then V3 <- normalize_row UtM V2 k ;; Ok (V3, e2)
              else Ok (V2, e2)) = Ok (V', e') ->
             0 <= e').
  { intros V2 e2 He2. destruct normalize.
    - intros Hn. apply bind_Ok in Hn as [V3 [Hn Hok]].
      injection Hok as _ <-. assumption.
    - intros Hok. injection Hok as _ <-. assumption. }
  destruct (truthy (entry UtU k k)).
  - set (d := hals_deltaV UtM UtU sparsity_coefficient V k).
    assert (He1 : 0 <= add e (vdot d d)).
    { pose proof (vdot_self_nonneg d). cbn [add QS3 Q_scalar].
      unfold Qadd_red. rewrite Qred_correct. lra. }
    destruct (nonzero_rows && all_zero _).
    + destruct (tl_max _) as [m|err]; cbn [bind]; [|discriminate].
      apply Hfinish. assumption.
    + cbn [bind]. apply Hfinish. assumption.
  - destruct nonzero_rows; cbn [bind]; [discriminate|].
    apply Hfinish. assumption.
Qed.

Lemma hals_sweep_error_nonneg (V V' : matrix Q) (e : Q) :
  hals_sweep UtM UtU sparsity_coefficient normalize nonzero_rows V
  = Ok (V', e) ->
  0 <= e.
Proof.
  intros Hsweep. unfold hals_sweep in Hsweep.
  destruct (for_each_invariant
              (fun k st =>
                 st' <- hals_row UtM UtU sparsity_coefficient normalize
                                 nonzero_rows k st ;; Ok (Continue st'))
              (fun (_ : nat) (st : matrix Q * Q) => 0 <= snd st))
    with (items := seq 0 (rank UtM)) (s := (V, zero)) (k := O)
         (s' := (V', e)) as [n [_ Hinv]]; auto.
  - intros k [V1 e1] n [V2 e2] HV1 Hstep.
    assert (Hrow : hals_row UtM UtU sparsity_coefficient normalize
                            nonzero_rows k (V1, e1) = Ok (V2, e2)).
    { destruct Hstep as [Hs | Hs]; apply bind_Ok in Hs as [st' [Hr Hok]];
        [injection Hok as <- | discriminate]; exact Hr. }
    eapply hals_row_error_nonneg; eauto.
  - cbn. lra.
Qed.

(** The test of lines 244 and 247 on the error fails after every sweep when
    [0 <= tol <= 1]: the error is a sum of squares, and it is compared with
    [tol] times itself at iteration 1 and with 0 at every other one. *)
Lemma hals_error_test_fails (tol : Q) (j : Z) (V V' : matrix Q)
    (l : hals_locals Q) :
  0 <= tol <= 1 ->
  hals_pass UtM UtU sparsity_coefficient normalize nonzero_rows j V
  = Ok (V', l) ->
  ltb (rec_error l) (mul tol (rec_error0 l)) = false.
Proof.
  intros Htol Hp. apply hals_pass_facts in Hp as [Hsweep [_ [H0 _]]].
  apply hals_sweep_error_nonneg in Hsweep.
  cbn [ltb mul QS3 Q_scalar]. unfold Qltb.
  apply negb_false_iff. apply Qle_bool_iff.
  unfold Qmul_red. rewrite Qred_correct. rewrite H0.
  destruct (j =? 1)%Z; cbn [zero QS3 Q_scalar]; nra.
Qed.

Lemma hals_iteration_tol (exact : bool) (tol1 tol2 : Q) (j : Z)
    (st : matrix Q * option (hals_locals Q)) :
  0 <= tol1 <= 1 -> 0 <= tol2 <= 1 ->
  hals_iteration UtM UtU sparsity_coefficient normalize nonzero_rows exact
                 tol1 j st
  = hals_iteration UtM UtU sparsity_coefficient normalize nonzero_rows exact
                   tol2 j st.
Proof.
  intros H1 H2. unfold hals_iteration.
  destruct (hals_pass UtM UtU sparsity_coefficient normalize nonzero_rows j
                      (fst st)) as [[V l]|e] eqn:Hp; cbn [bind];
    [|reflexivity].
  unfold hals_stop, stop_exact, stop_approx.
  rewrite (@hals_error_test_fails tol1 j (fst st) V l H1 Hp),
    (@hals_error_test_fails tol2 j (fst st) V l H2 Hp).
  reflexivity.
Qed.
End Sweeps.
End ExactStops.

(** In exact arithmetic the [tol] argument of [hals_nnls] has no effect
    as long as [0 <= tol <= 1]: results and errors are the same for any two
    such tolerances, the error test of lines 244 and 247 never being met. *)
Theorem hals_tolerance_without_effect :
  forall (sqrtQ : Q -> Q) (epsQ : Q)
         (solve : matrix Q -> matrix Q -> result (matrix Q))
         (dot_sm : Q -> matrix Q -> result (matrix Q))
         (UtM UtU : matrix Q) (sparsity_coefficient : option Q)
         (normalize nonzero_rows exact : bool) (V : option (matrix Q))
         (n_iter_max : Z) (tol1 tol2 : Q),
    0 <= tol1 <= 1 -> 0 <= tol2 <= 1 ->
    @hals_nnls Q (Q_scalar sqrtQ epsQ) solve dot_sm UtM UtU sparsity_coefficient
               normalize nonzero_rows exact V n_iter_max tol1
    = @hals_nnls Q (Q_scalar sqrtQ epsQ) solve dot_sm UtM UtU sparsity_coefficient
                 normalize nonzero_rows exact V n_iter_max tol2.
Proof.
  intros sqrtQ epsQ solve dot_sm UtM UtU sc nz nr exact V n tol1 tol2 H1 H2.
  unfold hals_nnls.
  destruct (hals_start solve dot_sm UtM UtU V) as [V0|err]; cbn [bind];
    [|reflexivity].
  destruct exact.
  - reflexivity.
  - cbn [effective_tol].
    rewrite (for_each_ext
               (hals_iteration UtM UtU sc nz nr false tol1)
               (hals_iteration UtM UtU sc nz nr false tol2)
               (fun j st => @hals_iteration_tol sqrtQ epsQ UtM UtU sc nz nr
                              false tol1 tol2 j st H1 H2)).
    reflexivity.
Qed.

(** In exact arithmetic a call of [hals_nnls] with [exact] set that
    returns has run all of its 5000 iterations: it returns [iteration]
    4999, whatever [n_iter_max] and [tol] were. *)
Theorem hals_exact_runs_all_iterations :
  forall (sqrtQ : Q -> Q) (epsQ : Q)
         (solve : matrix Q -> matrix Q -> result (matrix Q))
         (dot_sm : Q -> matrix Q -> result (matrix Q))
         (UtM UtU : matrix Q) (sparsity_coefficient : option Q)
         (normalize nonzero_rows : bool) (V : option (matrix Q))
         (n_iter_max : Z) (tol : Q) (Vr : matrix Q) (e : Q) (it : Z)
         (cr : Q),
    @hals_nnls Q (Q_scalar sqrtQ epsQ) solve dot_sm UtM UtU sparsity_coefficient
               normalize nonzero_rows true V n_iter_max tol
    = Ok (Vr, e, it, cr) ->
    it = 4999%Z.
Proof.
  intros sqrtQ epsQ solve dot_sm UtM UtU sc nz nr V n tol Vr e it cr Hret.
  destruct (hals_nnls_started _ _ _ _ _ _ _ _ _ _ _ Hret) as [V0 Hstart].
  destruct (proj1 (hals_nnls_returns solve dot_sm UtM UtU sc nz nr true V n tol
                     Vr e it cr Hstart) Hret)
    as [l [Hrun [_ [_ [_ [_ Hend]]]]]].
  destruct Hend as [Hstop | Hlast]; [|exact Hlast].
  exfalso.
  assert (Hp : exists j V1,
             @hals_pass Q (Q_scalar sqrtQ epsQ) UtM UtU sc nz nr j V1
             = Ok (Vr, l)).
  { inversion Hrun; subst; eauto. }
  destruct Hp as [j [V1 Hp]].
  assert (Htol : 0 <= @effective_tol Q (Q_scalar sqrtQ epsQ) true tol <= 1).
  { vm_compute. split; discriminate. }
  pose proof (@hals_error_test_fails sqrtQ epsQ UtM UtU sc nz nr _ j V1 Vr l
                Htol Hp) as Hfalse.
  unfold hals_stop, stop_exact in Hstop.
  discriminate (eq_trans (eq_sym Hstop) Hfalse).
Qed.

Section ExactRuns.
#[local] Instance Qfloor : Scalar Q := Q_scalar Qsqrt_floor 0.

Lemma hals_exact_nonnegative_witness :
  hals_start gauss_solve dot_sm_method
              [[3; 1]; [1; 2]] [[2; 1]; [1; 2]]
              (Some [[105 # 68; 0]; [0; 63 # 68]])
  = Ok [[105 # 68; 0]; [0; 63 # 68]]
  /\ nonneg_matrix [[105 # 68; 0]; [0; 63 # 68]]
  /\ hals_nnls gauss_solve dot_sm_method
                [[3; 1]; [1; 2]] [[2; 1]; [1; 2]] None false false false
                (Some [[105 # 68; 0]; [0; 63 # 68]]) 500 (1 # 10000000)
     = Ok ([[3 # 2; 5 # 8704]; [0; 17403 # 17408]], 1125 # 303038464, 3%Z,
           7 # 3)
  /\ nonneg_matrix [[3 # 2; 5 # 8704]; [0; 17403 # 17408]].
Proof.
  assert (Hstart :
    hals_start gauss_solve dot_sm_method
                [[3; 1]; [1; 2]] [[2; 1]; [1; 2]]
              (Some [[105 # 68; 0]; [0; 63 # 68]])
    = Ok [[105 # 68; 0]; [0; 63 # 68]]).
  { vm_compute. reflexivity. }
  assert (HV0 : nonneg_matrix [[105 # 68; 0]; [0; 63 # 68]]).
  { repeat (apply Forall_cons || apply Forall_nil); discriminate. }
  assert (Hret :
    hals_nnls gauss_solve dot_sm_method
               [[3; 1]; [1; 2]] [[2; 1]; [1; 2]] None false false false
               (Some [[105 # 68; 0]; [0; 63 # 68]]) 500 (1 # 10000000)
    = Ok ([[3 # 2; 5 # 8704]; [0; 17403 # 17408]], 1125 # 303038464, 3%Z,
          7 # 3)).
  { vm_compute. reflexivity. }
  split; [exact Hstart|]. split; [exact HV0|]. split; [exact Hret|].
  exact (@hals_exact_nonnegative Qsqrt_floor 0 Qsqrt_floor_nonneg
           (Qle_refl 0) gauss_solve dot_sm_method
           [[3; 1]; [1; 2]] [[2; 1]; [1; 2]] None false false false
           (Some [[105 # 68; 0]; [0; 63 # 68]]) 500
           (1 # 10000000) _ _ _ _ _ Hstart HV0 Hret).
Defined.

Lemma hals_tolerance_without_effect_witness :
  0 <= 0 <= 1 /\ 0 <= 1 # 10000000 <= 1
  /\ hals_nnls gauss_solve dot_sm_method
                [[3; 1]; [1; 2]] [[2; 1]; [1; 2]] None false false false
                (Some [[105 # 68; 0]; [0; 63 # 68]]) 500 0
     = hals_nnls gauss_solve dot_sm_method
                  [[3; 1]; [1; 2]] [[2; 1]; [1; 2]] None false false false
                  (Some [[105 # 68; 0]; [0; 63 # 68]]) 500 (1 # 10000000).
Proof.
  assert (H1 : 0 <= 0 <= 1) by (split; discriminate).
  assert (H2 : 0 <= 1 # 10000000 <= 1) by (split; discriminate).
  split; [exact H1|]. split; [exact H2|].
  exact (@hals_tolerance_without_effect Qsqrt_floor 0 gauss_solve dot_sm_method
           [[3; 1]; [1; 2]] [[2; 1]; [1; 2]] None false false false
           (Some [[105 # 68; 0]; [0; 63 # 68]]) 500
           0 (1 # 10000000) H1 H2).
Defined.

Lemma hals_exact_runs_all_iterations_witness :
  hals_nnls gauss_solve dot_sm_method
             [[1]; [-1]] [[1; 1 # 2]; [1 # 2; 1]] None false false true
             (Some [[0]; [1]]) 500 (1 # 10000000)
  = Ok ([[1]; [0]], 0, 4999%Z, 5 # 3)
  /\ 4999%Z = 4999%Z.
Proof.
  assert (Hret :
    hals_nnls gauss_solve dot_sm_method
               [[1]; [-1]] [[1; 1 # 2]; [1 # 2; 1]] None false false true
               (Some [[0]; [1]]) 500 (1 # 10000000)
    = Ok ([[1]; [0]], 0, 4999%Z, 5 # 3)).
  { vm_compute. reflexivity. }
  split; [exact Hret|].
  exact (@hals_exact_runs_all_iterations Qsqrt_floor 0 gauss_solve dot_sm_method
           [[1]; [-1]] [[1; 1 # 2]; [1 # 2; 1]] None false false
           (Some [[0]; [1]]) 500 (1 # 10000000) _ _ _ _ Hret).
Defined.
End ExactRuns.

Local Close Scope Q_scope.

(** ** More on [active_set_nnls] *)

Lemma list_remove_Permutation (v : nat) (l l' : list nat) :
  ActiveSet.list_remove v l = Ok l' -> Permutation (v :: l') l.
Proof.
  revert l'. induction l as [|a l IH]; simpl; intros l' Hr; [discriminate|].
  destruct (Nat.eqb_spec a v) as [-> | Hne].
  - injection Hr as <-. reflexivity.
  - apply bind_Ok in Hr as [l'' [Hr Hok]]. injection Hok as <-.
    rewrite perm_swap. constructor. apply IH. assumption.
Qed.

Lemma list_remove_In (v : nat) (l : list nat) :
  In v l -> exists l', ActiveSet.list_remove v l = Ok l'.
Proof.
  induction l as [|a l IH]; simpl; intros Hin; [contradiction|].
  destruct (Nat.eqb_spec a v) as [-> | Hne]; [eauto|].
  destruct Hin as [-> | Hin]; [contradiction|].
  destruct (IH Hin) as [l' ->]. simpl. eauto.
Qed.

Section ActiveSetFacts.
Context {F : Type} `{Scalar F}.

Lemma argmax_from_lt (w : vec F) (best : F) (ibest i : nat) :
  (ibest < i)%nat -> (argmax_from best ibest i w < i + length w)%nat.
Proof.
  revert best ibest i. induction w as [|x w IH]; simpl; intros best ibest i Hi.
  - lia.
  - destruct (isnan best); [lia|].
    destruct (isnan x || ltb best x).
    + specialize (IH x i (Datatypes.S i)). lia.
    + specialize (IH best ibest (Datatypes.S i)). lia.
Qed.

Lemma argmax_lt (w : vec F) (i : nat) :
  argmax w = Ok i -> (i < length w)%nat.
Proof.
  destruct w as [|x w]; simpl; [discriminate|].
  intros Hi. injection Hi as <-.
  pose proof (@argmax_from_lt w x O 1%nat). lia.
Qed.

Lemma iteration_head_Permutation (w : vec F) (P R P' R' : list nat) :
  ActiveSet.iteration_head w P R = Ok (ActiveSet.Pivot P' R') ->
  Permutation (P' ++ R') (P ++ R).
Proof.
  unfold ActiveSet.iteration_head. intros Hh.
  apply bind_Ok in Hh as [m [_ Hh]].
  destruct (ltb m zero); [discriminate|].
  apply bind_Ok in Hh as [i [_ Hh]].
  assert (Hmove :
             (R1 <- ActiveSet.list_remove i R ;;
              Ok (ActiveSet.Pivot (P ++ [i]) R1))
             = Ok (ActiveSet.Pivot P' R') ->
             Permutation (P' ++ R') (P ++ R)).
  { intros Hm. apply bind_Ok in Hm as [R1 [Hr Hok]].
    injection Hok as <- <-. apply list_remove_Permutation in Hr.
    rewrite <- app_assoc. simpl. apply Permutation_app_head. assumption. }
  destruct (length P =? 0)%nat; [apply Hmove; assumption|].
  destruct (negb (last P O =? i)%nat); [apply Hmove; assumption|].
  injection Hh as <- <-. reflexivity.
Qed.

Section Iterations.
Variable multi_mode_dot : tensor F -> list (matrix F) -> bool -> tensor F.
Variable kronecker : list (matrix F) -> matrix F.
Variable solve : matrix F -> matrix F -> result (matrix F).
Variable G : namespace.

Lemma repair_Permutation (sh : list nat) (AtA : matrix F) (AtB : vec F)
    (i : nat) (st : ActiveSet.state F) (fl : flow (ActiveSet.state F)) :
  ActiveSet.repair solve sh AtA AtB i st = Ok fl ->
  Permutation (ActiveSet.P (flow_state fl) ++ ActiveSet.R (flow_state fl))
              (ActiveSet.P st ++ ActiveSet.R st).
Proof.
  unfold ActiveSet.repair. intros Hr.
  apply bind_Ok in Hr as [m [_ Hr]].
  apply bind_Ok in Hr as [p_i [_ Hr]].
  apply bind_Ok in Hr as [negative [_ Hr]].
  apply bind_Ok in Hr as [st1 [Hst1 Hr]].
  apply bind_Ok in Hr as [m1 [_ Hr]].
  assert (Hperm : Permutation (ActiveSet.P st1 ++ ActiveSet.R st1)
                              (ActiveSet.P st ++ ActiveSet.R st)).
  { destruct negative.
    - apply bind_Ok in Hst1 as [P1 [HP1 Hst1]].
      apply bind_Ok in Hst1 as [sP [_ Hst1]].
      apply bind_Ok in Hst1 as [r_i [_ Hst1]].
      injection Hst1 as <-. simpl.
      apply list_remove_Permutation in HP1.
      rewrite <- HP1. rewrite app_assoc.
      rewrite <- Permutation_cons_append. reflexivity.
    - injection Hst1 as <-. reflexivity. }
  destruct (ltb zero m1); injection Hr as <-; exact Hperm.
Qed.

Lemma repairs_Permutation (sh : list nat) (AtA : matrix F) (AtB : vec F)
    (items : list nat) (st st' : ActiveSet.state F) :
  for_each (ActiveSet.repair solve sh AtA AtB) items st = Ok st' ->
  Permutation (ActiveSet.P st' ++ ActiveSet.R st')
              (ActiveSet.P st ++ ActiveSet.R st).
Proof.
  revert st. induction items as [|i items IH]; simpl; intros st Hrun.
  - injection Hrun as <-. reflexivity.
  - apply bind_Ok in Hrun as [fl [Hbody Hrest]].
    apply repair_Permutation in Hbody.
    destruct fl as [s1|s1]; simpl in Hbody.
    + rewrite (IH _ Hrest). assumption.
    + injection Hrest as <-. assumption.
Qed.
End Iterations.
End ActiveSetFacts.

(** Every iteration of [active_set_nnls] that completes keeps the indices:
    [P] and [R] together hold, up to their order, what they held when the
    iteration began, through the pivot of lines 286-292 and the moves of
    lines 303-304. *)
Theorem active_set_keeps_indices :
  forall (F : Type) (SF : Scalar F)
         (multi_mode_dot : tensor F -> list (matrix F) -> bool -> tensor F)
         (solve : matrix F -> matrix F -> result (matrix F))
         (sh : list nat) (AtA : matrix F) (AtB : vec F)
         (pseudo_inverse : list (matrix F)) (iteration : Z)
         (st : ActiveSet.state F) (fl : flow (ActiveSet.state F)),
    ActiveSet.active_set_iteration multi_mode_dot solve sh AtA AtB
                                   pseudo_inverse iteration st = Ok fl ->
    Permutation (ActiveSet.P (flow_state fl) ++ ActiveSet.R (flow_state fl))
                (ActiveSet.P st ++ ActiveSet.R st).
Proof.
  intros F SF mmd solve sh AtA AtB pinv it st fl.
  unfold ActiveSet.active_set_iteration. intros Hit.
  apply bind_Ok in Hit as [h [Hh Hit]].
  destruct h as [|P1 R1].
  - injection Hit as <-. reflexivity.
  - apply iteration_head_Permutation in Hh.
    apply bind_Ok in Hit as [sP [_ Hit]].
    apply bind_Ok in Hit as [m [_ Hit]].
    apply bind_Ok in Hit as [st1 [Hst1 Hit]].
    apply bind_Ok in Hit as [nrm [_ Hit]].
    assert (Hperm : Permutation (ActiveSet.P st1 ++ ActiveSet.R st1)
                                (ActiveSet.P st ++ ActiveSet.R st)).
    { destruct (leb m zero).
      - apply repairs_Permutation in Hst1. simpl in Hst1.
        rewrite Hst1. assumption.
      - injection Hst1 as <-. simpl. assumption. }
    destruct (it >=? 1).
    + apply bind_Ok in Hit as [e2 [_ Hit]].
      apply bind_Ok in Hit as [e1 [_ Hit]].
      destruct (_ || _); [injection Hit as <-; exact Hperm|].
      destruct (_ =? _)%nat; injection Hit as <-; exact Hperm.
    + injection Hit as <-. exact Hperm.
Qed.

Lemma active_set_keeps_indices_witness :
  ActiveSet.active_set_iteration mode_dot_1d gauss_solve [1%nat]
    [[1]]%float [2]%float [[[1]]]%float 0
    {| ActiveSet.x_vec := [0]%float; ActiveSet.w := [2]%float;
       ActiveSet.P := []; ActiveSet.R := [0%nat]; ActiveSet.s := [0]%float;
       ActiveSet.update := Some [1]%float; ActiveSet.rec_erroras := [] |}
  = Ok (Continue
          {| ActiveSet.x_vec := [2]%float; ActiveSet.w := [0]%float;
             ActiveSet.P := [0%nat]; ActiveSet.R := [];
             ActiveSet.s := [2]%float; ActiveSet.update := Some [1]%float;
             ActiveSet.rec_erroras := [1]%float |})
  /\ Permutation ([0%nat] ++ []) ([] ++ [0%nat]).
Proof.
  split; [vm_compute; reflexivity|].
  exact (@active_set_keeps_indices float float_scalar mode_dot_1d gauss_solve
           [1%nat] [[1]]%float [2]%float [[[1]]]%float 0
           {| ActiveSet.x_vec := [0]%float; ActiveSet.w := [2]%float;
              ActiveSet.P := []; ActiveSet.R := [0%nat];
              ActiveSet.s := [0]%float; ActiveSet.update := Some [1]%float;
              ActiveSet.rec_erroras := [] |}
           (Continue
              {| ActiveSet.x_vec := [2]%float; ActiveSet.w := [0]%float;
                 ActiveSet.P := [0%nat]; ActiveSet.R := [];
                 ActiveSet.s := [2]%float; ActiveSet.update := Some [1]%float;
                 ActiveSet.rec_erroras := [1]%float |})
           eq_refl).
Defined.

(** A call of [active_set_nnls], the name [multi_mode_dot] bound, whose
    first [w] has a negative entry returns the [x] it was given, whatever
    [n_iter_max] is: the test of line 284 leaves the loop at once. *)
Theorem active_set_returns_start :
  forall (F : Type) (SF : Scalar F)
         (multi_mode_dot : tensor F -> list (matrix F) -> bool -> tensor F)
         (kronecker : list (matrix F) -> matrix F)
         (solve : matrix F -> matrix F -> result (matrix F))
         (G : namespace) (A : tensor F) (B : list (matrix F)) (x : tensor F)
         (n_iter_max : Z) (m : F),
    lookup G "multi_mode_dot" = Ok tt ->
    tl_min (vsub (tensor_to_vec (multi_mode_dot A B true))
                 (tensor_to_vec (multi_mode_dot x (map gram B) false)))
    = Ok m ->
    ltb m zero = true ->
    ActiveSet.active_set_nnls multi_mode_dot kronecker solve G A B (Some x)
                              n_iter_max
    = Ok x.
Proof.
  intros F SF mmd kron solve G A B x n m HG Hm Hlt.
  unfold ActiveSet.active_set_nnls. rewrite HG. cbn [bind].
  assert (Hx : reshape (tensor_to_vec x) (shape x) = x) by (destruct x; reflexivity).
  destruct (range n) as [|i items].
  - cbn [for_each bind ActiveSet.x_vec]. rewrite Hx. reflexivity.
  - cbn [for_each]. unfold ActiveSet.active_set_iteration at 1.
    unfold ActiveSet.iteration_head. cbn [ActiveSet.w].
    rewrite Hm. cbn [bind]. rewrite Hlt. cbn [bind ActiveSet.x_vec].
    rewrite Hx. reflexivity.
Qed.

Lemma active_set_returns_start_witness :
  lookup bound_globals "multi_mode_dot" = Ok tt
  /\ tl_min (vsub (tensor_to_vec (mode_dot_1d (vector [-1]%float)
                                              [[[1]]]%float true))
                  (tensor_to_vec (mode_dot_1d (vector [7]%float)
                                              (map gram [[[1]]]%float) false)))
     = Ok (-8)%float
  /\ PrimFloat.ltb (-8)%float 0%float = true
  /\ ActiveSet.active_set_nnls mode_dot_1d kronecker_1 gauss_solve
       bound_globals (vector [-1]%float) [[[1]]]%float
       (Some (vector [7]%float)) ActiveSet.default_n_iter_max
     = Ok (vector [7]%float).
Proof.
  split; [reflexivity|]. split; [reflexivity|]. split; [reflexivity|].
  exact (@active_set_returns_start float float_scalar mode_dot_1d kronecker_1
           gauss_solve bound_globals (vector [-1]%float) [[[1]]]%float
           (vector [7]%float) ActiveSet.default_n_iter_max (-8)%float
           eq_refl eq_refl eq_refl).
Defined.

(** A call of [active_set_nnls], the name [multi_mode_dot] bound, that runs
    an iteration, finds no negative entry in its first [w] and a positive
    solution on the first pivot, raises [UnboundLocalError]: line 313 takes
    the solution and line 317 reads [update], which only the loop of lines
    298-311 assigns. *)
Theorem active_set_update_unbound :
  forall (F : Type) (SF : Scalar F)
         (multi_mode_dot : tensor F -> list (matrix F) -> bool -> tensor F)
         (kronecker : list (matrix F) -> matrix F)
         (solve : matrix F -> matrix F -> result (matrix F))
         (G : namespace) (A : tensor F) (B : list (matrix F)) (x : tensor F)
         (n_iter_max : Z) (m m' : F) (indice : nat) (sP : vec F),
    let AtB := tensor_to_vec (multi_mode_dot A B true) in
    let w := vsub AtB
               (tensor_to_vec (multi_mode_dot x (map gram B) false)) in
    lookup G "multi_mode_dot" = Ok tt ->
    0 < n_iter_max ->
    tl_min w = Ok m -> ltb m zero = false ->
    argmax w = Ok indice ->
    ActiveSet.solve_restricted solve (kronecker (map gram B)) AtB [indice]
    = Ok sP ->
    tl_min (gather (scatter (repeat zero (length (tensor_to_vec x)))
                            [indice] sP) [indice]) = Ok m' ->
    leb m' zero = false ->
    ActiveSet.active_set_nnls multi_mode_dot kronecker solve G A B (Some x)
                              n_iter_max
    = Raise (UnboundLocalError "update").
Proof.
  intros F SF mmd kron solve G A B x n m m' i sP AtB w HG Hn Hm Hlt Hi
         Hsolve Hm' Hpos.
  unfold ActiveSet.active_set_nnls. rewrite HG. cbn [bind].
  fold AtB. fold w.
  unfold range. destruct (Z.to_nat n) as [|k] eqn:Hk; [lia|].
  cbn [seq map for_each].
  unfold ActiveSet.active_set_iteration at 1.
  unfold ActiveSet.iteration_head.
  cbn [ActiveSet.w ActiveSet.P ActiveSet.R ActiveSet.s ActiveSet.x_vec
       ActiveSet.update ActiveSet.rec_erroras].
  rewrite Hm. cbn [bind]. rewrite Hlt, Hi. cbn [bind length Nat.eqb app].
  destruct (@list_remove_In i (seq 0 (length w))) as [R' ->].
  { apply in_seq. apply argmax_lt in Hi. lia. }
  cbn [bind]. rewrite Hsolve. cbn [bind].
  cbn [ActiveSet.w ActiveSet.P ActiveSet.R ActiveSet.s ActiveSet.x_vec
       ActiveSet.update ActiveSet.rec_erroras].
  rewrite Hm'. cbn [bind]. rewrite Hpos. cbn [bind ActiveSet.update].
  reflexivity.
Qed.

Lemma active_set_update_unbound_witness :
  lookup bound_globals "multi_mode_dot" = Ok tt
  /\ 0 < ActiveSet.default_n_iter_max
  /\ tl_min (vsub (tensor_to_vec (mode_dot_1d (vector [2]%float)
                                              [[[1]]]%float true))
                  (tensor_to_vec (mode_dot_1d (vector [0]%float)
                                              (map gram [[[1]]]%float) false)))
     = Ok 2%float
  /\ PrimFloat.ltb 2%float 0%float = false
  /\ argmax (vsub (tensor_to_vec (mode_dot_1d (vector [2]%float)
                                              [[[1]]]%float true))
                  (tensor_to_vec (mode_dot_1d (vector [0]%float)
                                              (map gram [[[1]]]%float) false)))
     = Ok 0%nat
  /\ ActiveSet.solve_restricted gauss_solve
       (kronecker_1 (map gram [[[1]]]%float))
       (tensor_to_vec (mode_dot_1d (vector [2]%float) [[[1]]]%float true))
       [0%nat]
     = Ok [2]%float
  /\ tl_min (gather (scatter (repeat zero
                                (length (tensor_to_vec (vector [0]%float))))
                             [0%nat] [2]%float) [0%nat]) = Ok 2%float
  /\ leb 2%float zero = false
  /\ ActiveSet.active_set_nnls mode_dot_1d kronecker_1 gauss_solve
       bound_globals (vector [2]%float) [[[1]]]%float
       (Some (vector [0]%float)) ActiveSet.default_n_iter_max
     = Raise (UnboundLocalError "update").
Proof.
  split; [reflexivity|]. split; [reflexivity|]. split; [reflexivity|].
  split; [reflexivity|]. split; [reflexivity|]. split; [reflexivity|].
  split; [reflexivity|]. split; [reflexivity|].
  exact (@active_set_update_unbound float float_scalar mode_dot_1d kronecker_1
           gauss_solve bound_globals (vector [2]%float) [[[1]]]%float
           (vector [0]%float) ActiveSet.default_n_iter_max 2%float 2%float
           0%nat [2]%float eq_refl eq_refl eq_refl eq_refl eq_refl eq_refl
           eq_refl eq_refl).
Defined.

(** ** A fixed point of [fista_nnls], in exact arithmetic *)

Local Open Scope Q_scope.

Lemma Qred_zero (a : Q) : a == 0 -> Qred a = 0.
Proof. intros Ha. apply (@Qred_complete a 0). assumption. Qed.

Lemma Qred_same (a x : Q) : a == x -> Qred x = x -> Qred a = x.
Proof. intros Ha Hx. rewrite <- Hx. apply Qred_complete. assumption. Qed.

(** An entry of a solution: not negative, and in lowest terms as every
    number the arithmetic produces. *)
Lemma Qreduced_zero (x : Q) : Qred x = x -> 0 <= x -> Qltb 0 x = false -> x = 0.
Proof.
  intros Hx Hge Hlt. apply Qltb_false in Hlt.
  rewrite <- Hx. apply Qred_zero. lra.
Qed.

Section FistaFixedPoint.
Variable sqrtQ : Q -> Q.
Variable epsQ : Q.
#[local] Instance QS4 : Scalar Q := Q_scalar sqrtQ epsQ.

Local Abbreviation solution_entry := (fun v : Q => 0 <= v /\ Qred v = v).

Lemma gradient_zero (b : vec Q) :
  map2 add (map opp b) b = repeat 0 (length b).
Proof.
  unfold map2. induction b as [|v b IH];
    cbn [map combine fst snd length repeat]; [reflexivity|].
  rewrite IH. f_equal. cbn [add sub mul opp ltb QS4 Q_scalar]. unfold Qadd_red, Qopp_red. apply Qred_zero.
  rewrite Qred_correct. lra.
Qed.

Lemma scale_zero (c : Q) (n : nat) :
  map (mul c) (repeat 0 n) = repeat 0 n.
Proof.
  induction n as [|n IH]; cbn [map repeat]; [reflexivity|].
  rewrite IH. f_equal. cbn [add sub mul opp ltb QS4 Q_scalar]. unfold Qmul_red. apply Qred_zero. lra.
Qed.

Lemma step_zero (xs : vec Q) :
  Forall solution_entry xs ->
  where_ (map2 ltb (repeat 0 (length xs)) xs) (repeat 0 (length xs)) xs
  = repeat 0 (length xs).
Proof.
  unfold where_, map2. induction 1 as [|v xs [Hge Hred] Hxs IH];
    cbn [map combine fst snd length repeat]; [reflexivity|].
  rewrite IH. f_equal. cbn [add sub mul opp ltb QS4 Q_scalar].
  destruct (Qltb 0 v) eqn:Hlt; [reflexivity|].
  apply Qreduced_zero; assumption.
Qed.

Lemma sub_zero (xs : vec Q) :
  Forall solution_entry xs -> map2 sub xs (repeat 0 (length xs)) = xs.
Proof.
  unfold map2. induction 1 as [|v xs [Hge Hred] Hxs IH];
    cbn [map combine fst snd length repeat]; [reflexivity|].
  rewrite IH. f_equal. cbn [add sub mul opp ltb QS4 Q_scalar]. unfold Qsub_red. apply Qred_same; [lra | assumption].
Qed.

Lemma sub_self (xs : vec Q) : map2 sub xs xs = repeat 0 (length xs).
Proof.
  unfold map2. induction xs as [|v xs IH];
    cbn [map combine fst snd length repeat]; [reflexivity|].
  rewrite IH. f_equal. cbn [add sub mul opp ltb QS4 Q_scalar]. unfold Qsub_red. apply Qred_zero. lra.
Qed.

Lemma add_zero (xs : vec Q) :
  Forall solution_entry xs -> map2 add xs (repeat 0 (length xs)) = xs.
Proof.
  unfold map2. induction 1 as [|v xs [Hge Hred] Hxs IH];
    cbn [map combine fst snd length repeat]; [reflexivity|].
  rewrite IH. f_equal. cbn [add sub mul opp ltb QS4 Q_scalar]. unfold Qadd_red. apply Qred_same; [lra | assumption].
Qed.

Variable multi_mode_dot : tensor Q -> list (matrix Q) -> bool -> tensor Q.
Variable G : namespace.
Variable BtA : tensor Q.
Variable pseudo_inverse : list (matrix Q).
Variable gradient_step : Q.
Variable x0 : tensor Q.
Hypothesis np_bound : lookup G "np" = Ok tt.
Hypothesis solution : multi_mode_dot x0 pseudo_inverse false = BtA.
Hypothesis same_size : length (data BtA) = length (data x0).
Hypothesis entries : Forall solution_entry (data x0).

(** At a solution without negative entry an iteration moves nothing. *)
Lemma fista_iteration_fixed (iteration : Z) (st : Fista.state Q) :
  Fista.x st = x0 -> Fista.x_upd st = x0 ->
  exists fl,
    Fista.fista_iteration multi_mode_dot G BtA pseudo_inverse gradient_step
                          iteration st = Ok fl
    /\ Fista.x (flow_state fl) = x0 /\ Fista.x_upd (flow_state fl) = x0.
Proof.
  intros Hx Hupd.
  destruct (@fista_iteration_Ok Q QS4 multi_mode_dot G BtA pseudo_inverse
              gradient_step np_bound iteration st) as [fl [Hfl [Hx' [_ Hu']]]].
  exists fl. split; [exact Hfl|].
  assert (Hnew : Fista.x (flow_state fl) = x0).
  { rewrite Hx'. rewrite Hupd, solution.
    unfold Fista.delta_x. rewrite Hx, Hupd.
    unfold tsub, tadd, topp, tscale, twhere_lt, tmap2, tmap.
    cbn [data shape].
    rewrite gradient_zero, scale_zero, same_size, (@step_zero (data x0) entries),
      (@sub_zero (data x0) entries).
    destruct x0; reflexivity. }
  split; [exact Hnew|].
  rewrite Hu', Hnew, Hx.
  unfold tsub, tadd, tscale, tmap2, tmap. cbn [data shape].
  rewrite sub_self, scale_zero, (@add_zero (data x0) entries).
  destruct x0; reflexivity.
Qed.

Lemma fista_loop_fixed (items : list Z) (st : Fista.state Q) :
  Fista.x st = x0 -> Fista.x_upd st = x0 ->
  exists st',
    for_each (Fista.fista_iteration multi_mode_dot G BtA pseudo_inverse
                                    gradient_step) items st = Ok st'
    /\ Fista.x st' = x0.
Proof.
  revert st. induction items as [|i items IH]; intros st Hx Hupd.
  - exists st. split; [reflexivity | exact Hx].
  - destruct (@fista_iteration_fixed i st Hx Hupd) as [fl [Hfl [Hx' Hu']]].
    cbn [for_each]. rewrite Hfl. cbn [bind].
    destruct fl as [s1|s1]; cbn [flow_state] in *.
    + apply IH; assumption.
    + exists s1. split; [reflexivity | exact Hx'].
Qed.
End FistaFixedPoint.

(** In exact arithmetic a solution of the normal equations without negative
    entry is a fixed point of [fista_nnls]: started there, with the names
    [multi_mode_dot] and [np] bound, the call returns its start, whatever
    [n_iter_max], [gradient_step] and [sparsity_coefficient] are. *)
Theorem fista_solution_fixed :
  forall (sqrtQ : Q -> Q) (epsQ : Q)
         (multi_mode_dot : tensor Q -> list (matrix Q) -> bool -> tensor Q)
         (zeros_noshape : result (tensor Q)) (G : namespace)
         (A : tensor Q) (B : list (matrix Q)) (x0 : tensor Q)
         (n_iter_max : Z) (gradient_step sparsity_coefficient : option Q),
    lookup G "multi_mode_dot" = Ok tt ->
    lookup G "np" = Ok tt ->
    multi_mode_dot x0 (map (@gram Q (Q_scalar sqrtQ epsQ)) B) false
    = multi_mode_dot A B true ->
    length (data (multi_mode_dot A B true)) = length (data x0) ->
    Forall (fun v => 0 <= v /\ Qred v = v) (data x0) ->
    @Fista.fista_nnls Q (Q_scalar sqrtQ epsQ) multi_mode_dot zeros_noshape G
                      A B (Some x0) n_iter_max gradient_step
                      sparsity_coefficient
    = Ok x0.
Proof.
  intros sqrtQ epsQ mmd zeros G A B x0 n step sc Hmmd Hnp Hsol Hlen Hx0.
  unfold Fista.fista_nnls. cbv zeta. cbn [bind]. rewrite Hmmd. cbn [bind].
  destruct (@fista_loop_fixed sqrtQ epsQ mmd G (mmd A B true)
              (map (@gram Q (Q_scalar sqrtQ epsQ)) B)
              (match step with
               | None => @lit Q (Q_scalar sqrtQ epsQ) (1 # 1000)
               | Some g => g
               end)
              x0 Hnp Hsol Hlen Hx0 (range n)
              (@Fista.initial Q (Q_scalar sqrtQ epsQ) x0) eq_refl eq_refl)
    as [st' [Hloop Hx']].
  unfold QS4 in Hloop. rewrite Hloop. cbn [bind]. rewrite Hx'. reflexivity.
Qed.

Section FistaRuns.
#[local] Instance Qfloor2 : Scalar Q := Q_scalar Qsqrt_floor 0.

Lemma fista_solution_fixed_witness :
  lookup bound_globals "multi_mode_dot" = Ok tt
  /\ lookup bound_globals "np" = Ok tt
  /\ mode_dot_1d (vector [2; 0]) (map gram [[[1; 1]; [0; 1]]]) false
     = mode_dot_1d (vector [2; 0]) [[[1; 1]; [0; 1]]] true
  /\ length (data (mode_dot_1d (vector [2; 0]) [[[1; 1]; [0; 1]]] true))
     = length (data (vector [2; 0]))
  /\ Forall (fun v => 0 <= v /\ Qred v = v) (data (vector [2; 0]))
  /\ Fista.fista_nnls mode_dot_1d (Raise (TypeError "zeros")) bound_globals
       (vector [2; 0]) [[[1; 1]; [0; 1]]] (Some (vector [2; 0]))
       Fista.default_n_iter_max None None
     = Ok (vector [2; 0]).
Proof.
  assert (Hsol :
    mode_dot_1d (vector [2; 0]) (map gram [[[1; 1]; [0; 1]]]) false
    = mode_dot_1d (vector [2; 0]) [[[1; 1]; [0; 1]]] true).
  { vm_compute. reflexivity. }
  assert (Hx0 : Forall (fun v => 0 <= v /\ Qred v = v) (data (vector [2; 0]))).
  { repeat (apply Forall_cons || apply Forall_nil);
      (split; [discriminate | reflexivity]). }
  split; [reflexivity|]. split; [reflexivity|]. split; [exact Hsol|].
  split; [reflexivity|]. split; [exact Hx0|].
  exact (@fista_solution_fixed Qsqrt_floor 0 mode_dot_1d
           (Raise (TypeError "zeros")) bound_globals
           (vector [2; 0]) [[[1; 1]; [0; 1]]] (vector [2; 0])
           Fista.default_n_iter_max None None eq_refl eq_refl Hsol eq_refl
           Hx0).
Defined.
End FistaRuns.

Local Close Scope Q_scope.

(** ** [svd_thresholding], in exact arithmetic *)

Local Open Scope Q_scope.

Section ExactSvdThresholding.
Variable sqrtQ : Q -> Q.
Variable epsQ : Q.
#[local] Instance QS5 : Scalar Q := Q_scalar sqrtQ epsQ.

Local Abbreviation zeros := (Forall (fun x : Q => x = 0)).

(** The shrinkage gives the number 0 itself below the threshold, and the
    number itself for the threshold 0. *)
Lemma soft_threshold_vanishes (x t : Q) :
  Qabs x <= t -> soft_threshold x t = 0.
Proof.
  intros Hx.
  assert (Ht : 0 <= t) by (pose proof (Qabs_nonneg x); lra).
  destruct (@soft_threshold_regimes sqrtQ epsQ x t Ht) as [Hz _].
  specialize (Hz Hx). revert Hz.
  unfold soft_threshold. cbn [mul QS5 QS2 Q_scalar]. unfold Qmul_red.
  intros Hz. apply Qred_zero. rewrite Qred_correct in Hz. exact Hz.
Qed.

Lemma soft_threshold_zero_threshold (x : Q) :
  Qred x = x -> soft_threshold x 0 = x.
Proof.
  intros Hx.
  destruct (@soft_threshold_trichotomy sqrtQ epsQ x 0 (Qle_refl 0))
    as [[Hc Hz] | [[Hc Hz] | [Hc Hz]]];
    revert Hz; unfold soft_threshold; cbn [mul QS5 QS2 Q_scalar];
    unfold Qmul_red; rewrite Qred_correct; intros Hz;
    apply Qred_same; try assumption.
  - apply Qabs_Qle_condition in Hc. destruct Hc as [Hc1 Hc2].
    refine (Qeq_trans _ _ _ Hz _). lra.
  - refine (Qeq_trans _ _ _ Hz _). lra.
  - refine (Qeq_trans _ _ _ Hz _). lra.
Qed.

Lemma vscale_zeros (c : Q) (z : vec Q) : zeros z -> zeros (vscale c z).
Proof.
  intros Hz. unfold vscale. apply Forall_map.
  eapply Forall_impl; [|exact Hz]. intros x ->.
  cbn [mul QS5 Q_scalar]. unfold Qmul_red. apply Qred_zero. lra.
Qed.

Lemma vscale_by_zero (v : vec Q) : zeros (vscale 0 v).
Proof.
  unfold vscale. apply Forall_map. apply Forall_forall. intros x _.
  cbn [mul QS5 Q_scalar]. unfold Qmul_red. apply Qred_zero. lra.
Qed.

Lemma vadd_zeros (a b : vec Q) : zeros a -> zeros b -> zeros (vadd a b).
Proof.
  intros Ha. revert b. unfold vadd, map2.
  induction Ha as [|x a -> Ha IH]; intros b Hb; [constructor|].
  destruct Hb as [|y b -> Hb]; cbn [combine map fst snd]; constructor.
  - cbn [add QS5 Q_scalar]. unfold Qadd_red. apply Qred_zero. lra.
  - apply IH. exact Hb.
Qed.

Lemma dot_vm_zeros (a : vec Q) (Z : matrix Q) :
  Forall zeros Z -> zeros (dot_vm a Z).
Proof.
  intros HZ. unfold dot_vm.
  assert (Hinit : zeros (repeat zero (ncols Z))).
  { apply Forall_forall. intros x Hx. apply repeat_spec in Hx. exact Hx. }
  revert Hinit. generalize (repeat zero (ncols Z)) as acc.
  revert a. induction HZ as [|z Z Hz HZ IH]; intros a acc Hacc.
  - destruct a; exact Hacc.
  - destruct a as [|c a]; [exact Hacc|].
    cbn [combine fold_left fst snd]. apply IH.
    apply vadd_zeros; [exact Hacc | apply vscale_zeros; exact Hz].
Qed.

Lemma scale_rows_zeros (s : vec Q) (V : matrix Q) :
  zeros s -> Forall zeros (scale_rows s V).
Proof.
  intros Hs. revert V. unfold scale_rows, map2.
  induction Hs as [|x s -> Hs IH]; intros V; [constructor|].
  destruct V as [|v V]; cbn [combine map fst snd]; constructor.
  - apply vscale_by_zero.
  - apply IH.
Qed.
End ExactSvdThresholding.

(** In exact arithmetic [svd_thresholding] returns a matrix of zeros, with
    as many rows as the factor [U], when no singular value that
    [partial_svd] gives exceeds the threshold. *)
Theorem svd_thresholding_vanishes :
  forall (sqrtQ : Q -> Q) (epsQ : Q)
         (partial_svd : matrix Q -> nat
                        -> result (matrix Q * vec Q * matrix Q))
         (M : matrix Q) (threshold : Q) (U : matrix Q) (s : vec Q)
         (V : matrix Q),
    partial_svd M (Nat.min (@nrows Q M) (@ncols Q M)) = Ok (U, s, V) ->
    Forall (fun x => Qabs x <= threshold) s ->
    exists R,
      @svd_thresholding Q (Q_scalar sqrtQ epsQ) partial_svd M threshold
      = Ok R
      /\ length R = length U
      /\ Forall (Forall (fun x => x = 0)) R.
Proof.
  intros sqrtQ epsQ svd M t U s V Hsvd Hs.
  unfold svd_thresholding. rewrite Hsvd. cbn [bind].
  eexists. split; [reflexivity|]. split.
  - unfold matmul. apply length_map.
  - unfold matmul. apply Forall_map. apply Forall_forall. intros a _.
    apply dot_vm_zeros. apply scale_rows_zeros.
    cbn [soft_thresholding tmap data vector]. apply Forall_map.
    eapply Forall_impl; [|exact Hs].
    intros x Hx. apply soft_threshold_vanishes. exact Hx.
Qed.

(** In exact arithmetic [svd_thresholding] with the threshold 0 returns the
    product of the factors that [partial_svd] gives, the singular values
    unchanged. *)
Theorem svd_thresholding_zero_threshold :
  forall (sqrtQ : Q -> Q) (epsQ : Q)
         (partial_svd : matrix Q -> nat
                        -> result (matrix Q * vec Q * matrix Q))
         (M U : matrix Q) (s : vec Q) (V : matrix Q),
    partial_svd M (Nat.min (@nrows Q M) (@ncols Q M)) = Ok (U, s, V) ->
    Forall (fun x => Qred x = x) s ->
    @svd_thresholding Q (Q_scalar sqrtQ epsQ) partial_svd M 0
    = Ok (@matmul Q (Q_scalar sqrtQ epsQ) U
            (@scale_rows Q (Q_scalar sqrtQ epsQ) s V)).
Proof.
  intros sqrtQ epsQ svd M U s V Hsvd Hs.
  unfold svd_thresholding. rewrite Hsvd. cbn [bind].
  cbn [soft_thresholding tmap data vector].
  assert (Hmap : map (fun x => @soft_threshold Q (Q_scalar sqrtQ epsQ) x 0) s
                 = s).
  { clear Hsvd. induction Hs as [|x s Hx Hs IH]; cbn [map]; [reflexivity|].
    rewrite IH. f_equal. apply soft_threshold_zero_threshold. exact Hx. }
  rewrite Hmap. reflexivity.
Qed.

Section SvdRuns.
#[local] Instance Qfloor3 : Scalar Q := Q_scalar Qsqrt_floor 0.

Lemma svd_thresholding_vanishes_witness :
  (fun (_ : matrix Q) (_ : nat) =>
     Ok ([[1; 0]; [0; 1]], [3; 1], [[1; 0]; [0; 1]]))
    [[3; 0]; [0; 1]] (Nat.min (nrows [[3; 0]; [0; 1]]) (ncols [[3; 0]; [0; 1]]))
  = Ok ([[1; 0]; [0; 1]], [3; 1], [[1; 0]; [0; 1]])
  /\ Forall (fun x => Qabs x <= 3) [3; 1]
  /\ exists R,
      svd_thresholding
        (fun (_ : matrix Q) (_ : nat) =>
           Ok ([[1; 0]; [0; 1]], [3; 1], [[1; 0]; [0; 1]]))
        [[3; 0]; [0; 1]] 3 = Ok R
      /\ length R = length [[1; 0]; [0; 1]]
      /\ Forall (Forall (fun x => x = 0)) R.
Proof.
  assert (Hs : Forall (fun x => Qabs x <= 3) [3; 1]).
  { repeat (apply Forall_cons || apply Forall_nil); discriminate. }
  split; [reflexivity|]. split; [exact Hs|].
  exact (@svd_thresholding_vanishes Qsqrt_floor 0
           (fun (_ : matrix Q) (_ : nat) =>
              Ok ([[1; 0]; [0; 1]], [3; 1], [[1; 0]; [0; 1]]))
           [[3; 0]; [0; 1]] 3 [[1; 0]; [0; 1]] [3; 1] [[1; 0]; [0; 1]]
           eq_refl Hs).
Defined.

Lemma svd_thresholding_zero_threshold_witness :
  (fun (_ : matrix Q) (_ : nat) =>
     Ok ([[1; 0]; [0; 1]], [3; 1], [[1; 0]; [0; 1]]))
    [[3; 0]; [0; 1]] (Nat.min (nrows [[3; 0]; [0; 1]]) (ncols [[3; 0]; [0; 1]]))
  = Ok ([[1; 0]; [0; 1]], [3; 1], [[1; 0]; [0; 1]])
  /\ Forall (fun x => Qred x = x) [3; 1]
  /\ matmul [[1; 0]; [0; 1]] (scale_rows [3; 1] [[1; 0]; [0; 1]])
     = [[3; 0]; [0; 1]]
  /\ svd_thresholding
       (fun (_ : matrix Q) (_ : nat) =>
          Ok ([[1; 0]; [0; 1]], [3; 1], [[1; 0]; [0; 1]]))
       [[3; 0]; [0; 1]] 0
     = Ok (matmul [[1; 0]; [0; 1]] (scale_rows [3; 1] [[1; 0]; [0; 1]])).
Proof.
  assert (Hs : Forall (fun x => Qred x = x) [3; 1]).
  { repeat (apply Forall_cons || apply Forall_nil); reflexivity. }
  split; [reflexivity|]. split; [exact Hs|].
  split; [vm_compute; reflexivity|].
  exact (@svd_thresholding_zero_threshold Qsqrt_floor 0
           (fun (_ : matrix Q) (_ : nat) =>
              Ok ([[1; 0]; [0; 1]], [3; 1], [[1; 0]; [0; 1]]))
           [[3; 0]; [0; 1]] [[1; 0]; [0; 1]] [3; 1] [[1; 0]; [0; 1]]
           eq_refl Hs).
Defined.
End SvdRuns.

Local Close Scope Q_scope.
